(** * seqTools/alignAnnotate.py: alignment and annotation of query sequences
      against a set of reference sequences.

    A shallow embedding of the script and the properties of its
    matching/annotation engine.  Python dictionaries are finite maps
    ([gmap]); the order in which a dictionary is iterated is not fixed by the
    language the script is written in, so it is a parameter of the
    development.  Printing and exceptions are threaded through a small
    writer/error monad. *)

From Stdlib Require Import ZArith Ascii String.
From stdpp Require Import base option list strings gmap pretty.

Local Open Scope string_scope.
Local Open Scope Z_scope.

(** ** The Python runtime, as far as the script uses it *)

Module Py.

(** Exceptions the script can meet; none of them is caught anywhere. *)
Inductive exn : Type :=
| KeyError (key : string)
| IndexError
| ValueError (msg : string)
| AlignerFailure (seq1 seq2 : string).

(** A computation prints lines to stdout and then returns or raises. *)
Definition py (A : Type) : Type := list string * (exn + A).

Definition ret {A} (a : A) : py A := ([], inr a).
Definition raise {A} (e : exn) : py A := ([], inl e).
Definition print (line : string) : py unit := ([line], inr tt).

Definition bind {A B} (m : py A) (k : A → py B) : py B :=
  match m with
  | (out, inl e) => (out, inl e)
  | (out, inr a) => let (out', r) := k a in ((out ++ out')%list, r)
  end.

Definition stdout {A} (m : py A) : list string := m.1.
Definition result {A} (m : py A) : exn + A := m.2.

(** [returns m a]: the computation ends normally with value [a]. *)
Definition returns {A} (m : py A) (a : A) : Prop := result m = inr a.
(** [raises m]: the computation is aborted by an exception. *)
Definition raises {A} (m : py A) : Prop := ∃ e, result m = inl e.

(** Evaluating [f] on each element in turn, left to right; the first
    exception ends the traversal. *)
Fixpoint mapM {A B} (f : A → py B) (l : list A) : py (list B) :=
  match l with
  | [] => ret []
  | x :: l' => bind (f x) (λ y, bind (mapM f l') (λ ys, ret (y :: ys)))
  end.

(** Numbers handed to [str]: a Python integer or [numpy.nan]. *)
Inductive num : Type :=
| Int (z : Z)
| NaN.

Definition str (x : num) : string :=
  match x with
  | Int z => pretty z
  | NaN => "nan"
  end.

(** [sep.join(l)] *)
Definition join (sep : string) (l : list string) : string :=
  String.concat sep l.

(** [len(s)] on a string and on a list *)
Definition len (s : string) : Z := Z.of_nat (String.length s).
Definition llen {A} (l : list A) : Z := Z.of_nat (length l).

(** [s.upper()] on a byte string *)
Definition upper_char (c : ascii) : ascii :=
  let n := nat_of_ascii c in
  if (97 <=? n)%nat && (n <=? 122)%nat then ascii_of_nat (n - 32) else c.

Fixpoint upper (s : string) : string :=
  match s with
  | EmptyString => EmptyString
  | String c s' => String (upper_char c) (upper s')
  end.

(** [min(l)]: raises on an empty sequence *)
Definition min (l : list Z) : py Z :=
  match l with
  | [] => raise (ValueError "min() arg is an empty sequence")
  | x :: l' => ret (foldl Z.min x l')
  end.

(** [l[0]] *)
Definition first {A} (l : list A) : py A :=
  match l with
  | [] => raise IndexError
  | x :: _ => ret x
  end.

(** [d[k]] *)
Definition getitem {V} (d : gmap string V) (k : string) : py V :=
  match d !! k with
  | Some v => ret v
  | None => raise (KeyError k)
  end.

(** [{k: v for ...}]: the pairs are stored one after the other, a later pair
    replacing an earlier one with the same key. *)
Definition dict_of {V} (l : list (string * V)) : gmap string V :=
  foldl (λ d kv, <[kv.1 := kv.2]> d) ∅ l.

(** Truth value of a dictionary: non-empty. *)
Definition truthy {V} (d : gmap string V) : bool :=
  negb (Nat.eqb (size d) 0).

End Py.

Import Py.

Notation "'let!' x ':=' m 'in' k" := (Py.bind m (λ x, k))
  (at level 10, x name, m at level 100, k at level 200, only parsing).
Notation "'do!' m 'in' k" := (Py.bind m (λ _, k))
  (at level 10, m at level 100, k at level 200, only parsing).

(** ** The script *)

Module alignAnnotate.

(** *** seqlib.hamming *)

(** Modelled from the spec: [seqlib.hamming], imported by the script but not
    part of the sources at hand.  The spec defines it as the count of
    positions where two equal-length strings differ; on strings of unequal
    length, about which the spec is silent, the positions both strings have
    are counted. *)
Fixpoint hamming (seq1 seq2 : string) : Z :=
  match seq1, seq2 with
  | String c1 r1, String c2 r2 =>
      (if Ascii.eqb c1 c2 then 0 else 1) + hamming r1 r2
  | _, _ => 0
  end.

(** *** The formatter *)

Definition makeAnnotation (label : string) (numMM numIn numDel : num)
    (listMM listIn listDel : list string) : string :=
  let csMM := join "," listMM in
  let csIn := join "," listIn in
  let csDel := join "," listDel in
  let listAnnotation :=
    [label; str numMM; str numIn; str numDel; csMM; csIn; csDel] in
  join ":" listAnnotation.

Definition warnMMonly : string :=
  "Warning! Multiple reference sequences have the same Hamming distance with the query sequence".
Definition warnMMindels : string :=
  "Warning! Multiple aligned reference sequences have the same Hamming distance with the aligned query sequence".

(** The annotation of a query that is left unassigned. *)
Definition NA : string := makeAnnotation "NA" NaN NaN NaN [] [] [].

(** *** The matchers *)

Section Matchers.

(** The order in which a dictionary hands out its entries: some
    arrangement of them.  It is given for a dictionary with its entries:
    the interpreter's order may also depend on the order in which the keys
    were put in, and dictionaries with the same entries built in different
    orders are not told apart here. *)
Variable iter_order : ∀ V : Type, list (string * V) → list (string * V).

(** [d.items()] and [d.values()] *)
Definition items {V} (d : gmap string V) : list (string * V) :=
  iter_order V (map_to_list d).
Definition values {V} (d : gmap string V) : list V := (items d).*2.

(** The rest of [seqlib], of which the script only fixes the interface:
    the mismatch lister, the pairwise aligner ([None]: the call raises) and
    the lister of mismatches and indels of a gapped pair. *)
Variable findMismatches : string → string → Z → list Z → list string.
Variable alignEmbossNeedle : string → string → option (string * string).
Variable findMismatchesAndIndels :
  string → string → Z → list Z → list string * list string * list string.

Definition callAligner (seq1 seq2 : string) : py (string * string) :=
  match alignEmbossNeedle seq1 seq2 with
  | Some al => ret al
  | None => raise (AlignerFailure seq1 seq2)
  end.

(** The dictionary of Hamming distances of the mismatch-only matcher: the
    references that have the length of the query. *)
Definition hamDictMMonly (querySeq : string)
    (refSeqsDict : gmap string string) : gmap string Z :=
  dict_of ((λ kv, (kv.1, hamming querySeq kv.2)) <$>
           filter (λ kv, len querySeq = len kv.2) (items refSeqsDict)).

Definition alignAnnotateEachSeqMMonly (querySeq : string)
    (refSeqsDict : gmap string string) (startPos : Z)
    (refPosDict : gmap string (list Z)) (MMcutoff : Z) : py string :=
  let hamDict := hamDictMMonly querySeq refSeqsDict in
  if truthy hamDict then
    let! minHam := Py.min (values hamDict) in
    let minHamRefIDs :=
      (filter (λ kv, kv.2 = minHam) (items hamDict)).*1 in
    if bool_decide (minHam ≤ MMcutoff) then
      do! (if bool_decide (llen minHamRefIDs > 1) then print warnMMonly
           else ret tt) in
      let! matchID := first minHamRefIDs in
      let! refSeq := getitem refSeqsDict matchID in
      let! refPos := getitem refPosDict matchID in
      let listMM := findMismatches querySeq refSeq startPos refPos in
      ret (makeAnnotation matchID (Int minHam) (Int 0) (Int 0) listMM [] [])
    else
      ret (makeAnnotation "NA" NaN NaN NaN [] [] [])
  else
    ret (makeAnnotation "NA" NaN NaN NaN [] [] []).

(** The dictionary of Hamming distances of the indel matcher, from the
    dictionary of gapped pairs. *)
Definition hamDictMMindels (alignmentsDict : gmap string (string * string))
    : gmap string Z :=
  dict_of ((λ kv, (kv.1, hamming kv.2.1 kv.2.2)) <$> items alignmentsDict).

Definition alignAnnotateEachSeqMMindels (querySeq : string)
    (refSeqsDict : gmap string string) (startPos : Z)
    (refPosDict : gmap string (list Z)) : py string :=
  let! alignments :=
    mapM (λ kv, let! al := callAligner querySeq kv.2 in ret (kv.1, al))
         (items refSeqsDict) in
  let alignmentsDict := dict_of alignments in
  let hamDict := hamDictMMindels alignmentsDict in
  let! minHam := Py.min (values hamDict) in
  let minHamAlignmentIDs :=
    (filter (λ kv, kv.2 = minHam) (items hamDict)).*1 in
  do! (if bool_decide (llen minHamAlignmentIDs > 1) then print warnMMindels
       else ret tt) in
  let! matchID := first minHamAlignmentIDs in
  let! al := getitem alignmentsDict matchID in
  let! refPos := getitem refPosDict matchID in
  let '(listMM, listIn, listDel) :=
    findMismatchesAndIndels al.1 al.2 startPos refPos in
  ret (makeAnnotation matchID (Int (llen listMM)) (Int (llen listIn))
         (Int (llen listDel)) listMM listIn listDel).

(** The cutoff option of the command line is an integer or absent. *)
Definition falsy (MMcutoff : option Z) : bool :=
  match MMcutoff with
  | None => true
  | Some c => c =? 0
  end.

Definition alignAnnotateEachSeq (querySeq : string)
    (refSeqsDict : gmap string string) (startPos : Z)
    (refPosDict : gmap string (list Z)) (MMcutoff : option Z)
    (indelMode : bool) : py string :=
  match list_find (λ kv, querySeq = kv.2) (items refSeqsDict) with
  | Some (_, (refSeqID, _)) =>
      ret (makeAnnotation refSeqID (Int 0) (Int 0) (Int 0) [] [] [])
  | None =>
      if negb indelMode then
        let MMcutoff' :=
          if falsy MMcutoff then len querySeq else default 0 MMcutoff in
        alignAnnotateEachSeqMMonly querySeq refSeqsDict startPos refPosDict
          MMcutoff'
      else
        alignAnnotateEachSeqMMindels querySeq refSeqsDict startPos refPosDict
  end.

End Matchers.

(** *** The script's [main]: reference index, batch and output column *)

(** A record of the reference file as the parser hands it over. *)
Record SeqRecord : Type := {
  id : string;
  seq : string;
  phred_quality : list Z
}.

(** A row of the table of query sequences: the columns the script reads,
    for a table that has them and whose [seq] cells are strings, as the
    queries of the spec are.  (A cell the table reader takes for a missing
    value is no string; such tables are outside the model.) *)
Record Row : Type := {
  row_seq : string;
  row_count : Z
}.

(** The command line. *)
Record Args : Type := {
  indel : bool;
  MMcutoff : option Z;
  numberedMode : bool;
  startPos : Z;
  count : bool;
  numCore : Z
}.

Definition phredOffset : Z := 15.

(** The loop that fills [refSeqsDict] and [refPosDict]. *)
Definition readRefSeqs (numbered : bool) (records : list SeqRecord)
    : gmap string string * gmap string (list Z) :=
  foldl (λ dicts record,
           (<[id record := upper (seq record)]> dicts.1,
            <[id record :=
                if numbered
                then (((λ i, i - phredOffset) <$> phred_quality record) ++ [1])%list
                else []]> dicts.2))
        (∅, ∅) records.

(** [series.apply(f)]: [f] on each element, in order. *)
Definition Series_apply {A B} (f : A → py B) (series : list A) : py (list B) :=
  mapM f series.

(** [joblib.Parallel(n_jobs)(jobs)]: the list of the delayed calls' results
    in the order of the calls; an exception in a call is raised again in the
    caller, and [n_jobs = 0] is refused.  The lines the calls print are kept
    in the order of the calls; how the workers interleave them is not
    modelled. *)
Definition Parallel {B} (n_jobs : Z) (jobs : list (py B)) : py (list B) :=
  if n_jobs =? 0 then raise (ValueError "n_jobs == 0 in Parallel has no meaning")
  else mapM (λ job, job) jobs.

Section Main.

Variable iter_order : ∀ V : Type, list (string * V) → list (string * V).
Variable findMismatches : string → string → Z → list Z → list string.
Variable alignEmbossNeedle : string → string → option (string * string).
Variable findMismatchesAndIndels :
  string → string → Z → list Z → list string * list string * list string.

Definition annotate (args : Args) (refSeqsDict : gmap string string)
    (refPosDict : gmap string (list Z)) (querySeq : string) : py string :=
  alignAnnotateEachSeq iter_order findMismatches alignEmbossNeedle
    findMismatchesAndIndels querySeq refSeqsDict (startPos args) refPosDict
    (MMcutoff args) (indel args).

(** The column of annotations, before the counts are appended. *)
Definition allAnnotations (args : Args) (refSeqsDict : gmap string string)
    (refPosDict : gmap string (list Z)) (allQuerySeqs : list Row)
    : py (list string) :=
  if numCore args =? 1 then
    Series_apply (annotate args refSeqsDict refPosDict)
      (upper <$> (row_seq <$> allQuerySeqs))
  else
    Parallel (numCore args)
      ((λ seq, annotate args refSeqsDict refPosDict (upper seq)) <$>
       (row_seq <$> allQuerySeqs)).

(** The column written to the output table. *)
Definition allAnnotationsAndCounts (args : Args) (annotations : list string)
    (allQuerySeqs : list Row) : list string :=
  if count args then
    zip_with (λ a c, a +:+ ":" +:+ c) annotations
      ((λ row, str (Int (row_count row))) <$> allQuerySeqs)
  else
    (λ a, a +:+ ":") <$> annotations.

(** [main], from the parsed reference records and the table of queries to
    the column it inserts into the table; parsing the two files, inserting
    the column at [outCol] and writing the table are left to the
    libraries. *)
Definition main (args : Args) (records : list SeqRecord)
    (allQuerySeqs : list Row) : py (list string) :=
  let dicts := readRefSeqs (numberedMode args) records in
  let! annotations := allAnnotations args dicts.1 dicts.2 allQuerySeqs in
  ret (allAnnotationsAndCounts args annotations allQuerySeqs).

End Main.

End alignAnnotate.

Import alignAnnotate.

(** ** Vocabulary of the properties *)

Module Vocab.

Fixpoint all_chars (P : ascii → bool) (s : string) : bool :=
  match s with
  | EmptyString => true
  | String c s' => P c && all_chars P s'
  end.

Definition has_char (P : ascii → bool) (s : string) : bool :=
  negb (all_chars (λ c, negb (P c)) s).

Definition is_digit (c : ascii) : bool :=
  (48 <=? nat_of_ascii c)%nat && (nat_of_ascii c <=? 57)%nat.

Definition is_colon (c : ascii) : bool := Ascii.eqb c ":".

(** [s.split(sep)] for a separator of one character *)
Fixpoint split (sep : ascii) (s : string) : list string :=
  match s with
  | EmptyString => [EmptyString]
  | String c s' =>
      if Ascii.eqb c sep then EmptyString :: split sep s'
      else match split sep s' with
           | field :: fields => String c field :: fields
           | [] => [String c EmptyString]
           end
  end.

(** The cutoff the mismatch-only matcher is called with. *)
Definition effectiveCutoff (querySeq : string) (MMcutoff : option Z) : Z :=
  if falsy MMcutoff then len querySeq else default 0 MMcutoff.

(** [attains_min hamDict k h]: [k] is a key whose distance [h] is the least
    of the dictionary. *)
Definition attains_min (hamDict : gmap string Z) (k : string) (h : Z) : Prop :=
  hamDict !! k = Some h ∧ ∀ k' h', hamDict !! k' = Some h' → h ≤ h'.

(** The position labels [main] stores for a record. *)
Definition refPosOf (numbered : bool) (record : SeqRecord) : list Z :=
  if numbered
  then (((λ i, i - phredOffset) <$> phred_quality record) ++ [1])%list
  else [].

Section Vocabulary.

Variable iter_order : ∀ V : Type, list (string * V) → list (string * V).
Variable alignEmbossNeedle : string → string → option (string * string).

(** [first_min hamDict k h]: in the dictionary's iteration order, [k] is
    the first key whose distance is the least one, [h]. *)
Definition first_min (hamDict : gmap string Z) (k : string) (h : Z) : Prop :=
  attains_min hamDict k h ∧
  ∃ l1 l2, items iter_order hamDict = (l1 ++ (k, h) :: l2)%list ∧
           ∀ kv, kv ∈ l1 → kv.2 ≠ h.

(** The gapped pairs of the references on which the aligner returns. *)
Definition alignmentsOf (querySeq : string)
    (refSeqsDict : gmap string string) : gmap string (string * string) :=
  omap (alignEmbossNeedle querySeq) refSeqsDict.

End Vocabulary.

End Vocab.

Import Vocab.

(** ** Concrete data for the examples *)

Module Sample.

(** A dictionary iterated in the order in which the finite map lists it. *)
Definition listing_order : ∀ V : Type, list (string * V) → list (string * V) :=
  λ _ l, l.

(** An aligner that places no gap, and one that raises on one query. *)
Definition ungapped (seq1 seq2 : string) : option (string * string) :=
  Some (seq1, seq2).
Definition raising_on (bad seq1 seq2 : string) : option (string * string) :=
  if decide (seq1 = bad) then None else Some (seq1, seq2).

(** Listers that report nothing. *)
Definition no_list : string → string → Z → list Z → list string :=
  λ _ _ _ _, [].
Definition no_lists
    : string → string → Z → list Z → list string * list string * list string :=
  λ _ _ _ _, ([], [], []).

Definition oneRef : gmap string string := <["r1" := "AATT"]> ∅.
Definition onePos : gmap string (list Z) := <["r1" := []]> ∅.
Definition twoRefs : gmap string string :=
  <["r1" := "AATT"]> (<["r2" := "TTAA"]> ∅).
Definition twoPos : gmap string (list Z) := <["r1" := []]> (<["r2" := []]> ∅).
(** A reference of the query's length and a shorter one. *)
Definition mixedRefs : gmap string string :=
  <["r1" := "AATT"]> (<["short" := "AAA"]> ∅).
Definition mixedPos : gmap string (list Z) :=
  <["r1" := []]> (<["short" := []]> ∅).

Definition fasta (name sequence : string) : SeqRecord :=
  {| id := name; seq := sequence; phred_quality := [] |}.
Definition query (sequence : string) (n : Z) : Row :=
  {| row_seq := sequence; row_count := n |}.

Definition mismatchArgs (cutoff : option Z) (counts : bool) (cores : Z) : Args :=
  {| indel := false; MMcutoff := cutoff; numberedMode := false; startPos := 1;
     count := counts; numCore := cores |}.
Definition indelArgs (cores : Z) : Args :=
  {| indel := true; MMcutoff := None; numberedMode := false; startPos := 1;
     count := false; numCore := cores |}.

End Sample.

(** ** old/seq/compressVariants_c1_v1.py: sizes of the blocks of equal
       sequences *)

Module compressVariants.

(** [s.rstrip()] on a byte string: trailing white space is dropped. *)
Definition is_space (c : ascii) : bool :=
  let n := nat_of_ascii c in
  (n =? 32)%nat || ((9 <=? n)%nat && (n <=? 13)%nat).

Fixpoint rstrip (s : string) : string :=
  match s with
  | EmptyString => EmptyString
  | String c s' =>
      match rstrip s' with
      | EmptyString => if is_space c then EmptyString else String c EmptyString
      | t => String c t
      end
  end.

Definition newline : string := String "010" EmptyString.

(** [line.rstrip().split('\t')[1]] *)
Definition secondField (line : string) : exn + string :=
  match split "009" (rstrip line) with
  | _ :: field :: _ => inr field
  | _ => inl IndexError
  end.

(** The variables of the second loop of [main], the lines written to the
    [.stat] file and the lines printed. *)
Record state : Type := {
  lineCount : Z;
  seqBlock : list string;
  lastSeq : string;
  statFile : list string;
  printed : list string
}.

(** The first loop: the number of lines, and the sequence of the first
    line ([lastSeq] is not bound when the file is empty; the second loop
    then reads nothing). *)
Definition countLines (lines : list string) : exn + (Z * string) :=
  match lines with
  | [] => inr (0, EmptyString)
  | line :: _ =>
      match secondField line with
      | inl e => inl e
      | inr lastSeq => inr (llen lines, lastSeq)
      end
  end.

(** The body of the second loop on one line; the state is returned as it is
    when the body ends or raises. *)
Definition step (numSeqs : Z) (st : state) (line : string)
    : state * option exn :=
  let lineCount' := lineCount st + 1 in
  let printed' :=
    if lineCount' `mod` 1000 =? 0
    then (printed st ++
          ["Processing the " +:+ str (Int lineCount') +:+ "th sequence"])%list
    else printed st in
  match secondField line with
  | inl e =>
      ({| lineCount := lineCount'; seqBlock := seqBlock st;
          lastSeq := lastSeq st; statFile := statFile st;
          printed := printed' |}, Some e)
  | inr seq =>
      if negb (String.eqb seq (lastSeq st)) || (lineCount' =? numSeqs) then
        let block :=
          if lineCount' =? numSeqs then (seqBlock st ++ [seq])%list
          else seqBlock st in
        let degeneracy := llen block in
        ({| lineCount := lineCount'; seqBlock := [seq]; lastSeq := seq;
            statFile :=
              (statFile st ++ [str (Int degeneracy) +:+ newline])%list;
            printed := printed' |}, None)
      else
        ({| lineCount := lineCount'; seqBlock := (seqBlock st ++ [seq])%list;
            lastSeq := seq; statFile := statFile st;
            printed := printed' |}, None)
  end.

Fixpoint loop (numSeqs : Z) (st : state) (lines : list string)
    : state * option exn :=
  match lines with
  | [] => (st, None)
  | line :: lines' =>
      match step numSeqs st line with
      | (st', Some e) => (st', Some e)
      | (st', None) => loop numSeqs st' lines'
      end
  end.

(** What a run leaves: the lines printed, the lines of the [.stat] file
    ([None]: the file was never opened) and the value returned or the
    exception. *)
Record run : Type := {
  stdout : list string;
  stat : option (list string);
  outcome : exn + Z
}.

Definition main (lines : list string) : run :=
  match countLines lines with
  | inl e => {| stdout := []; stat := None; outcome := inl e |}
  | inr (numSeqs, lastSeq) =>
      let st0 := {| lineCount := 0; seqBlock := []; lastSeq := lastSeq;
                    statFile := []; printed := [] |} in
      match loop numSeqs st0 lines with
      | (st, Some e) =>
          {| stdout := printed st; stat := Some (statFile st);
             outcome := inl e |}
      | (st, None) =>
          {| stdout :=
               (printed st ++
                [newline +:+ "Total number of sequences analyzed:" +:+ " " +:+
                 str (Int numSeqs) +:+ " " +:+ "(100%)"])%list;
             stat := Some (statFile st);
             outcome := inr 1 |}
      end
  end.

End compressVariants.

(** Vocabulary for the blocks: the lengths of the maximal runs of equal
    consecutive elements, from the left. *)
Module Blocks.

(** The run lengths of [replicate c x ++ l], for [c] at least [1]. *)
Fixpoint runs_from (c : Z) (x : string) (l : list string) : list Z :=
  match l with
  | [] => [c]
  | y :: l' =>
      if String.eqb y x then runs_from (c + 1) y l'
      else c :: runs_from 1 y l'
  end.

Definition runs (l : list string) : list Z :=
  match l with
  | [] => []
  | x :: l' => runs_from 1 x l'
  end.

(** The run-length encoding itself, and its decoding. *)
Fixpoint rle_from (c : Z) (x : string) (l : list string) : list (string * Z) :=
  match l with
  | [] => [(x, c)]
  | y :: l' =>
      if String.eqb y x then rle_from (c + 1) y l'
      else (x, c) :: rle_from 1 y l'
  end.

Definition rle (l : list string) : list (string * Z) :=
  match l with
  | [] => []
  | x :: l' => rle_from 1 x l'
  end.

Definition unrle (blocks : list (string * Z)) : list string :=
  flat_map (λ b, replicate (Z.to_nat b.2) b.1) blocks.

(** One more in the last block; a first block of one when there is none. *)
Fixpoint bump_last (counts : list Z) : list Z :=
  match counts with
  | [] => [1]
  | [n] => [n + 1]
  | n :: counts' => n :: bump_last counts'
  end.

Definition sum (counts : list Z) : Z := foldr Z.add 0 counts.

(** A count as it is written to the file. *)
Definition written (n : Z) : string := str (Int n) +:+ compressVariants.newline.

(** A line has a second field when a tab is left once its trailing white
    space is dropped. *)
Definition is_tab (c : ascii) : bool := Ascii.eqb c "009".
Definition has_second_field (line : string) : bool :=
  has_char is_tab (compressVariants.rstrip line).

(** [fields lines seqs]: every line has a second field, and [seqs] are the
    second fields of the lines, in order. *)
Definition fields (lines seqs : list string) : Prop :=
  Forall2 (λ line seq, compressVariants.secondField line = inr seq) lines seqs.

(** The progress line printed at line [i] of the file. *)
Definition progress (i : Z) : string :=
  "Processing the " +:+ str (Int i) +:+ "th sequence".

(** The summary printed for a file of [n] lines. *)
Definition summary (n : Z) : string :=
  compressVariants.newline +:+ "Total number of sequences analyzed: " +:+
  str (Int n) +:+ " (100%)".

End Blocks.

(** ** quantTools/mergeTimeSeries.py: the two concatenation helpers *)

Module mergeTimeSeries.

(** Threading an accumulator through a loop whose body may raise. *)
Fixpoint foldM {A B} (f : A → B → py A) (a : A) (l : list B) : py A :=
  match l with
  | [] => ret a
  | x :: l' => let! a' := f a x in foldM f a' l'
  end.

Section Concat.

(** The values held by the series and the data frames, and Python's [str]
    on them. *)
Variable V : Type.
Variable repr : V → string.

(** A series with distinct string labels: [series[label]] is the value at
    the label, or raises [KeyError]. *)
Definition concatSeriesIntoString (series : gmap string V)
    (indexLabels : list string) (separator : string) : py string :=
  let! label0 := first indexLabels in
  let! value0 := getitem series label0 in
  foldM (λ string currElement,
           let! value := getitem series currElement in
           ret ((string +:+ separator) +:+ repr value))
        (repr value0) (tail indexLabels).

(** A data frame as its columns, all over the same index, with at least one
    row: adding two columns of texts, or a column of texts and a string,
    goes entry by entry.  (On a frame without rows the columns made by
    [map(str)] hold no text, and what [s + separator] does then is left to
    the library; such frames are outside the model.) *)
Definition concatDFColumnsIntoSeries (df : gmap string (list V))
    (columnsLabels : list string) (separator : string) : py (list string) :=
  let! label0 := first columnsLabels in
  let! column0 := getitem df label0 in
  foldM (λ s currCol,
           let! column := getitem df currCol in
           ret (zip_with (λ a b, a +:+ b)
                  ((λ a, a +:+ separator) <$> s) (repr <$> column)))
        (repr <$> column0) (tail columnsLabels).

End Concat.

End mergeTimeSeries.

(** Lines of an input file for the examples: a barcode, a tab, a sequence
    and the end of the line. *)
Module Lines.

Definition tab : string := String "009" EmptyString.
Definition line (barcode sequence : string) : string :=
  barcode +:+ tab +:+ sequence +:+ compressVariants.newline.

End Lines.

(** A series of times and a frame of signals for the examples; the values
    are integers and their text is that of [str]. *)
Module Frames.

Definition text (z : Z) : string := str (Int z).
Definition times : gmap string Z := <["1" := 0]> (<["2" := 15]> ∅).
Definition signals : gmap string (list Z) :=
  <["1" := [10; 20]]> (<["2" := [11; 21]]> ∅).

End Frames.

(** ** Facts about the runtime *)

Lemma bind_inl {A B} (m : py A) (k : A → py B) e :
  result m = inl e → bind m k = (stdout m, inl e).
Proof. destruct m as [out [e'|a]]; simpl; congruence. Qed.

Lemma bind_inr {A B} (m : py A) (k : A → py B) a :
  result m = inr a →
  bind m k = ((stdout m ++ stdout (k a))%list, result (k a)).
Proof.
  destruct m as [out [e'|a']]; simpl; [congruence|].
  intros [= ->]. by destruct (k a).
Qed.

Lemma bind_ret {A B} (a : A) (k : A → py B) : bind (ret a) k = k a.
Proof. unfold bind, ret. by destruct (k a). Qed.

Lemma bind_returns {A B} (m : py A) (k : A → py B) b :
  returns (bind m k) b ↔ ∃ a, returns m a ∧ returns (k a) b.
Proof.
  unfold returns. destruct m as [out [e|a]]; simpl.
  - split; [done|]. by intros (? & ? & ?).
  - destruct (k a) as [out' r] eqn:Hk; simpl. split.
    + intros ->. exists a. by rewrite Hk.
    + intros (a' & [= <-] & Hr). by rewrite Hk in Hr.
Qed.

Lemma bind_raises_l {A B} (m : py A) (k : A → py B) :
  raises m → raises (bind m k).
Proof. intros [e He]. exists e. by rewrite (bind_inl _ _ e). Qed.

Lemma bind_raises_r {A B} (m : py A) (k : A → py B) a :
  returns m a → raises (k a) → raises (bind m k).
Proof. intros Ha [e He]. exists e. by rewrite (bind_inr _ _ a). Qed.

Lemma returns_not_raises {A} (m : py A) a : returns m a → ¬ raises m.
Proof. unfold returns. intros Ha [e He]. congruence. Qed.

Lemma returns_or_raises {A} (m : py A) : (∃ a, returns m a) ∨ raises m.
Proof. destruct m as [out [e|a]]; [right; by exists e|left; by exists a]. Qed.

(** A traversal returns exactly when every call does, and then lists the
    values call by call. *)
Lemma mapM_returns {A B} (f : A → py B) (l : list A) (ys : list B) :
  returns (mapM f l) ys ↔ Forall2 (λ x y, returns (f x) y) l ys.
Proof.
  revert ys. induction l as [|x l IH]; intros ys; simpl.
  - split; [intros [= <-]; constructor|by inversion 1].
  - rewrite bind_returns. split.
    + intros (y & Hy & Hrest). apply bind_returns in Hrest as (ys' & Hys' & Hret).
      injection Hret as <-. constructor; [done|]. by apply IH.
    + inversion 1 as [|? y ? ys' Hy Hys']; subst. exists y. split; [done|].
      apply bind_returns. exists ys'. split; [by apply IH|done].
Qed.

Lemma mapM_raises {A B} (f : A → py B) (l : list A) x :
  x ∈ l → raises (f x) → raises (mapM f l).
Proof.
  induction l as [|x' l IH]; [by intros ?%elem_of_nil|].
  intros [->|Hin]%elem_of_cons Hx; simpl.
  - by apply bind_raises_l.
  - destruct (returns_or_raises (f x')) as [[y Hy]|?]; [|by apply bind_raises_l].
    eapply bind_raises_r; [done|]. apply bind_raises_l. by apply IH.
Qed.

Lemma mapM_total {A B} (f : A → py B) (l : list A) :
  (∀ x, x ∈ l → ∃ y, returns (f x) y) → ∃ ys, returns (mapM f l) ys.
Proof.
  induction l as [|x l IH]; intros Hall.
  - by exists [].
  - destruct (Hall x) as [y Hy]; [by left|].
    destruct IH as [ys Hys]; [intros; apply Hall; by right|].
    exists (y :: ys). apply mapM_returns. constructor; [done|].
    by apply mapM_returns.
Qed.



Lemma min_spec (l : list Z) :
  l ≠ [] → ∃ m, Py.min l = ret m ∧ m ∈ l ∧ ∀ x, x ∈ l → m ≤ x.
Proof.
  destruct l as [|x l]; [done|]. intros _. simpl.
  exists (foldl Z.min x l). split; [done|].
  revert x. induction l as [|y l IH]; intros x; simpl.
  - split; [by left|]. intros ? ->%list_elem_of_singleton. lia.
  - destruct (IH (Z.min x y)) as [Hin Hle]. split.
    + apply elem_of_cons in Hin as [Heq|Hin].
      * rewrite Heq. destruct (Z.min_spec x y) as [[_ ->]|[_ ->]];
          [by left|right; by left].
      * right. by right.
    + intros z Hz. assert (foldl Z.min (Z.min x y) l ≤ Z.min x y)
        by (apply Hle; by left).
      apply elem_of_cons in Hz as [->|[->|Hz]%elem_of_cons]; [lia|lia|].
      apply Hle. by right.
Qed.

(** ** Facts about dictionaries *)

Section DictFacts.

Context {V : Type}.

Lemma dict_of_list_to_map (l : list (string * V)) :
  dict_of l = list_to_map (reverse l).
Proof.
  unfold dict_of, list_to_map.
  generalize (∅ : gmap string V). induction l as [|kv l IH]; intros d; [done|].
  simpl. rewrite IH, reverse_cons, foldr_app. done.
Qed.

Lemma dict_of_lookup (l : list (string * V)) k v :
  NoDup l.*1 → dict_of l !! k = Some v ↔ (k, v) ∈ l.
Proof.
  intros Hnd. rewrite dict_of_list_to_map, <-elem_of_list_to_map.
  - by rewrite elem_of_reverse.
  - by rewrite fmap_reverse, reverse_Permutation.
Qed.

End DictFacts.

Lemma filter_cons_first {A} (P : A → Prop) `{∀ x, Decision (P x)}
    (l : list A) x r :
  filter P l = x :: r →
  ∃ l1 l2, l = (l1 ++ x :: l2)%list ∧ P x ∧ (∀ y, y ∈ l1 → ¬ P y) ∧
           r = filter P l2.
Proof.
  induction l as [|y l IH]; [done|]. rewrite filter_cons.
  destruct (decide (P y)) as [Hy|Hy].
  - intros [= -> <-]. exists [], l. split_and!; [done|done| |done].
    by intros ? ?%elem_of_nil.
  - intros (l1 & l2 & -> & Hx & Hl1 & ->)%IH. exists (y :: l1), l2.
    split_and!; [done|done| |done].
    by intros z [->|?]%elem_of_cons; [|apply Hl1].
Qed.

(** ** The matchers under an arbitrary iteration order *)

Section MatcherFacts.

Variable iter_order : ∀ V : Type, list (string * V) → list (string * V).
Hypothesis iter_order_perm :
  ∀ V (l : list (string * V)), iter_order V l ≡ₚ l.
Variable findMismatches : string → string → Z → list Z → list string.
Variable alignEmbossNeedle : string → string → option (string * string).
Variable findMismatchesAndIndels :
  string → string → Z → list Z → list string * list string * list string.

Abbreviation items := (items iter_order).
Abbreviation values := (values iter_order).
Abbreviation hamDictMMonly := (hamDictMMonly iter_order).
Abbreviation hamDictMMindels := (hamDictMMindels iter_order).
Abbreviation alignAnnotateEachSeqMMonly :=
  (alignAnnotateEachSeqMMonly iter_order findMismatches).
Abbreviation alignAnnotateEachSeqMMindels :=
  (alignAnnotateEachSeqMMindels iter_order alignEmbossNeedle
     findMismatchesAndIndels).
Abbreviation alignAnnotateEachSeq :=
  (alignAnnotateEachSeq iter_order findMismatches alignEmbossNeedle
     findMismatchesAndIndels).

Abbreviation first_min := (first_min iter_order).
Abbreviation alignmentsOf := (alignmentsOf alignEmbossNeedle).

Lemma items_perm {V} (d : gmap string V) : items d ≡ₚ map_to_list d.
Proof. apply iter_order_perm. Qed.

Lemma elem_of_items {V} (d : gmap string V) k v :
  (k, v) ∈ items d ↔ d !! k = Some v.
Proof. by rewrite items_perm, elem_of_map_to_list. Qed.

Lemma NoDup_items {V} (d : gmap string V) : NoDup (items d).*1.
Proof. rewrite items_perm. apply NoDup_fst_map_to_list. Qed.

Lemma items_nil {V} (d : gmap string V) : items d = [] ↔ d = ∅.
Proof.
  rewrite <-map_to_list_empty_iff. split; intros Hnil.
  - apply Permutation_nil_r. by rewrite <-Hnil, items_perm.
  - apply Permutation_nil_r. by rewrite items_perm, Hnil.
Qed.

Lemma elem_of_values {V} (d : gmap string V) v :
  v ∈ values d ↔ ∃ k, d !! k = Some v.
Proof.
  unfold alignAnnotate.values. rewrite list_elem_of_fmap. split.
  - intros ([k v'] & -> & Hin). exists k. by apply elem_of_items.
  - intros [k Hk]. exists (k, v). split; [done|]. by apply elem_of_items.
Qed.

(** *** The candidates of the mismatch-only matcher *)

Lemma NoDup_filter_items {V} (P : string * V → Prop)
    `{∀ x, Decision (P x)} (d : gmap string V) :
  NoDup (filter P (items d)).*1.
Proof.
  eapply sublist_NoDup; [apply (NoDup_items d)|].
  apply fmap_sublist, sublist_filter.
Qed.

Lemma NoDup_candidates (querySeq : string) (refSeqsDict : gmap string string) :
  NoDup ((λ kv : string * string, (kv.1, hamming querySeq kv.2)) <$>
         filter (λ kv, len querySeq = len kv.2) (items refSeqsDict)).*1.
Proof.
  rewrite <-list_fmap_compose.
  apply (NoDup_filter_items (λ kv, len querySeq = len kv.2)).
Qed.

(** The distance dictionary holds exactly the references of the query's
    length, each with its Hamming distance to the query. *)
Lemma hamDictMMonly_lookup querySeq (refSeqsDict : gmap string string) k h :
  hamDictMMonly querySeq refSeqsDict !! k = Some h ↔
  ∃ refSeq, refSeqsDict !! k = Some refSeq ∧ len querySeq = len refSeq ∧
            h = hamming querySeq refSeq.
Proof.
  unfold alignAnnotate.hamDictMMonly.
  rewrite dict_of_lookup by apply NoDup_candidates.
  rewrite list_elem_of_fmap. split.
  - intros ([k' s] & [= -> ->] & [Hlen Hin]%list_elem_of_filter).
    exists s. by apply elem_of_items in Hin.
  - intros (s & Hk & Hlen & ->). exists (k, s). split; [done|].
    apply list_elem_of_filter. split; [done|]. by apply elem_of_items.
Qed.

Lemma hamDictMMonly_empty querySeq (refSeqsDict : gmap string string) :
  hamDictMMonly querySeq refSeqsDict = ∅ ↔
  ∀ k refSeq, refSeqsDict !! k = Some refSeq → len querySeq ≠ len refSeq.
Proof.
  rewrite map_empty. split.
  - intros Hnone k s Hk Hlen.
    specialize (Hnone k). apply eq_None_not_Some in Hnone. apply Hnone.
    exists (hamming querySeq s). apply hamDictMMonly_lookup. eauto.
  - intros Hnone k. apply eq_None_not_Some. intros [h Hh].
    apply hamDictMMonly_lookup in Hh as (s & Hk & Hlen & _).
    by eapply Hnone.
Qed.

Lemma truthy_empty {V} (d : gmap string V) : truthy d = false ↔ d = ∅.
Proof.
  unfold truthy. rewrite negb_false_iff, Nat.eqb_eq. apply map_size_empty_iff.
Qed.

(** *** Selecting the first minimum of a distance dictionary *)

Lemma attains_min_unique_value hamDict k1 h1 k2 h2 :
  attains_min hamDict k1 h1 → attains_min hamDict k2 h2 → h1 = h2.
Proof.
  intros [Hk1 Hmin1] [Hk2 Hmin2].
  apply Hmin1 in Hk2. apply Hmin2 in Hk1. lia.
Qed.

Lemma first_min_unique hamDict k1 h1 k2 h2 :
  first_min hamDict k1 h1 → first_min hamDict k2 h2 → k1 = k2 ∧ h1 = h2.
Proof.
  intros [Ha1 (l1 & l2 & Hl & Hpre)] [Ha2 (l1' & l2' & Hl' & Hpre')].
  assert (h1 = h2) as <- by eauto using attains_min_unique_value.
  split; [|done]. rewrite Hl in Hl'.
  destruct (decide (length l1 = length l1')) as [Hlen|Hlen].
  - apply app_inj_1 in Hl' as [_ [= ->]]; done.
  - assert ((length l1 < length l1')%nat ∨ (length l1' < length l1)%nat)
      as [Hlt|Hlt] by lia.
    + exfalso. apply (Hpre' (k1, h1)); [|done].
      apply list_elem_of_lookup. exists (length l1).
      assert (((l1' ++ (k2, h1) :: l2') !! length l1)%list = Some (k1, h1))
        as Hlk by (rewrite <-Hl'; apply list_lookup_middle; done).
      by rewrite lookup_app_l in Hlk.
    + exfalso. apply (Hpre (k2, h1)); [|done].
      apply list_elem_of_lookup. exists (length l1').
      assert (((l1 ++ (k1, h1) :: l2) !! length l1')%list = Some (k2, h1))
        as Hlk by (rewrite Hl'; apply list_lookup_middle; done).
      by rewrite lookup_app_l in Hlk.
Qed.

(** What the two matchers compute from a non-empty distance dictionary:
    its least distance, and the keys at that distance in iteration order,
    the first of which is the first minimum. *)
Lemma select_min (hamDict : gmap string Z) :
  hamDict ≠ ∅ →
  ∃ minHam matchID others,
    Py.min (values hamDict) = ret minHam ∧
    (filter (λ kv, kv.2 = minHam) (items hamDict)).*1 = matchID :: others ∧
    first_min hamDict matchID minHam ∧
    (∀ k, k ∈ others ↔ k ≠ matchID ∧ hamDict !! k = Some minHam).
Proof.
  intros Hne.
  destruct (min_spec (values hamDict)) as (m & Hmin & Hin & Hle).
  { unfold alignAnnotate.values. intros Hnil%fmap_nil_inv. by apply items_nil in Hnil. }
  apply elem_of_values in Hin as [k0 Hk0].
  destruct (filter (λ kv, kv.2 = m) (items hamDict)) as [|[k h] r] eqn:Hf.
  { assert ((k0, m) ∈ filter (λ kv : string * Z, kv.2 = m) (items hamDict)) as Hx.
    { apply list_elem_of_filter. split; [done|]. by apply elem_of_items. }
    rewrite Hf in Hx. by apply elem_of_nil in Hx. }
  exists m, k, r.*1. split; [done|]. split; [by rewrite Hf|].
  pose proof Hf as (l1 & l2 & Hl & Hh & Hl1 & Hr)%filter_cons_first.
  simpl in Hh. subst h.
  assert (hamDict !! k = Some m) as Hk.
  { apply elem_of_items. rewrite Hl. apply elem_of_app. right. by left. }
  split; [|].
  - split.
    + split; [done|]. intros k' h' Hk'. apply Hle, elem_of_values. eauto.
    + exists l1, l2. split; [done|]. intros kv Hkv. by apply Hl1.
  - intros k'. pose proof (NoDup_items hamDict) as Hnd.
    rewrite Hl, fmap_app, fmap_cons in Hnd. simpl in Hnd.
    apply NoDup_app in Hnd as (_ & Hdisj & [Hnotin _]%NoDup_cons).
    rewrite Hr, list_elem_of_fmap. split.
    + intros ([k'' h''] & -> & [Hh'' Hin'']%list_elem_of_filter).
      simpl in *. subst h''. split.
      * intros ->. apply Hnotin. apply list_elem_of_fmap. by exists (k, m).
      * apply elem_of_items. rewrite Hl. apply elem_of_app. right. by right.
    + intros [Hneq Hk']. exists (k', m). split; [done|].
      apply list_elem_of_filter. split; [done|].
      apply elem_of_items in Hk'. rewrite Hl in Hk'.
      apply elem_of_app in Hk' as [Hk'|[[= ->]|Hk']%elem_of_cons];
        [|done|done].
      exfalso. by apply (Hl1 (k', m)).
Qed.

(** *** The mismatch-only matcher, case by case *)

Lemma MMonly_no_candidate querySeq refSeqsDict startPos refPosDict MMcutoff :
  hamDictMMonly querySeq refSeqsDict = ∅ →
  alignAnnotateEachSeqMMonly querySeq refSeqsDict startPos refPosDict MMcutoff
  = ret NA.
Proof.
  intros Hempty. unfold alignAnnotate.alignAnnotateEachSeqMMonly.
  by rewrite (proj2 (truthy_empty _) Hempty).
Qed.

Lemma MMonly_candidates querySeq refSeqsDict startPos refPosDict MMcutoff :
  let hamDict := hamDictMMonly querySeq refSeqsDict in
  hamDict ≠ ∅ →
  ∃ minHam matchID others refSeq,
    first_min hamDict matchID minHam ∧
    (∀ k, k ∈ others ↔ k ≠ matchID ∧ hamDict !! k = Some minHam) ∧
    refSeqsDict !! matchID = Some refSeq ∧
    len querySeq = len refSeq ∧
    minHam = hamming querySeq refSeq ∧
    alignAnnotateEachSeqMMonly querySeq refSeqsDict startPos refPosDict
      MMcutoff
    = if bool_decide (minHam ≤ MMcutoff) then
        (if bool_decide (others ≠ []) then [warnMMonly] else [],
         match refPosDict !! matchID with
         | Some refPos =>
             inr (makeAnnotation matchID (Int minHam) (Int 0) (Int 0)
                    (findMismatches querySeq refSeq startPos refPos) [] [])
         | None => inl (KeyError matchID)
         end)
      else ret NA.
Proof.
  intros hamDict Hne.
  destruct (select_min hamDict Hne)
    as (minHam & matchID & others & Hmin & Hids & Hfirst & Hothers).
  pose proof Hfirst as [[Hk _] _].
  apply hamDictMMonly_lookup in Hk as (refSeq & Hrefs & Hlen & Hham).
  exists minHam, matchID, others, refSeq. split_and!; try done.
  unfold alignAnnotate.alignAnnotateEachSeqMMonly. fold hamDict.
  assert (truthy hamDict = true) as ->.
  { apply not_false_iff_true. by rewrite truthy_empty. }
  rewrite Hmin, bind_ret, Hids.
  destruct (bool_decide (minHam ≤ MMcutoff)); [|done].
  assert (bool_decide (llen (matchID :: others) > 1)
          = bool_decide (others ≠ [])) as ->.
  { apply bool_decide_ext. unfold llen. destruct others; simpl; [|split; [done|lia]].
    split; [lia|done]. }
  assert (∀ (warn : py unit) out,
    warn = (out, inr tt) →
    bind warn (λ _,
      let! matchID := first (matchID :: others) in
      let! refSeq := getitem refSeqsDict matchID in
      let! refPos := getitem refPosDict matchID in
      let listMM := findMismatches querySeq refSeq startPos refPos in
      ret (makeAnnotation matchID (Int minHam) (Int 0) (Int 0) listMM [] []))
    = (out,
       match refPosDict !! matchID with
       | Some refPos =>
           inr (makeAnnotation matchID (Int minHam) (Int 0) (Int 0)
                  (findMismatches querySeq refSeq startPos refPos) [] [])
       | None => inl (KeyError matchID)
       end)) as Hrun.
  { intros warn out ->. unfold bind at 1.
    change (first (matchID :: others)) with (ret matchID).
    rewrite bind_ret. unfold getitem. rewrite Hrefs, bind_ret.
    destruct (refPosDict !! matchID); simpl; by rewrite app_nil_r. }
  destruct (bool_decide (others ≠ [])); by apply Hrun.
Qed.

(** *** The indel matcher, case by case *)

Abbreviation callAligner := (callAligner alignEmbossNeedle).

Lemma align_all_returns querySeq (l : list (string * string)) :
  (∀ kv, kv ∈ l → is_Some (alignEmbossNeedle querySeq kv.2)) →
  ∃ alignments,
    mapM (λ kv, let! al := callAligner querySeq kv.2 in ret (kv.1, al)) l
    = ret alignments ∧
    alignments.*1 = l.*1 ∧
    ∀ k al, (k, al) ∈ alignments ↔
            ∃ refSeq, (k, refSeq) ∈ l ∧
                      alignEmbossNeedle querySeq refSeq = Some al.
Proof.
  induction l as [|[k s] l IH]; intros Hall.
  - exists []. split_and!; [done..|]. intros k al. split.
    + by intros ?%elem_of_nil.
    + by intros (? & ?%elem_of_nil & _).
  - destruct (Hall (k, s)) as [al Hal]; [by left|]. simpl in Hal.
    destruct IH as (als & Hmap & Hkeys & Hals); [intros; apply Hall; by right|].
    exists ((k, al) :: als). split_and!.
    + simpl. unfold alignAnnotate.callAligner at 1. rewrite Hal, !bind_ret.
      by rewrite Hmap, bind_ret.
    + rewrite !fmap_cons. simpl. by rewrite Hkeys.
    + intros k' al'. rewrite elem_of_cons, Hals. split.
      * intros [[= -> ->]|(s' & Hin & Hal')].
        -- exists s. split; [by left|done].
        -- exists s'. split; [by right|done].
      * intros (s' & [[= -> ->]|Hin]%elem_of_cons & Hal').
        -- left. congruence.
        -- right. eauto.
Qed.

Lemma align_some_raises querySeq (l : list (string * string)) :
  (∃ kv, kv ∈ l ∧ alignEmbossNeedle querySeq kv.2 = None) →
  ∃ kv, kv ∈ l ∧ alignEmbossNeedle querySeq kv.2 = None ∧
    mapM (λ kv, let! al := callAligner querySeq kv.2 in ret (kv.1, al)) l
    = raise (AlignerFailure querySeq kv.2).
Proof.
  induction l as [|[k s] l IH]; intros (kv & Hin & Hkv).
  - by apply elem_of_nil in Hin.
  - destruct (alignEmbossNeedle querySeq s) as [al|] eqn:Hal.
    + apply elem_of_cons in Hin as [->|Hin]; [simpl in Hkv; congruence|].
      destruct IH as (kv' & Hin' & Hkv' & Hmap); [eauto|].
      exists kv'. split_and!; [by right|done|].
      simpl. unfold alignAnnotate.callAligner at 1. rewrite Hal, !bind_ret.
      by rewrite Hmap.
    + exists (k, s). split_and!; [by left|done|].
      simpl. unfold alignAnnotate.callAligner at 1. by rewrite Hal.
Qed.

Lemma hamDictMMindels_lookup (alignmentsDict : gmap string (string * string))
    k h :
  hamDictMMindels alignmentsDict !! k = Some h ↔
  ∃ al, alignmentsDict !! k = Some al ∧ h = hamming al.1 al.2.
Proof.
  unfold alignAnnotate.hamDictMMindels. rewrite dict_of_lookup.
  - rewrite list_elem_of_fmap. split.
    + intros ([k' al] & [= -> ->] & Hin). exists al.
      by apply elem_of_items in Hin.
    + intros (al & Hk & ->). exists (k, al). split; [done|].
      by apply elem_of_items.
  - rewrite <-list_fmap_compose. apply (NoDup_items alignmentsDict).
Qed.

Lemma MMindels_aligner_raises querySeq refSeqsDict startPos refPosDict :
  (∃ k refSeq, refSeqsDict !! k = Some refSeq ∧
               alignEmbossNeedle querySeq refSeq = None) →
  ∃ k refSeq, refSeqsDict !! k = Some refSeq ∧
    alignEmbossNeedle querySeq refSeq = None ∧
    alignAnnotateEachSeqMMindels querySeq refSeqsDict startPos refPosDict
    = raise (AlignerFailure querySeq refSeq).
Proof.
  intros (k & s & Hk & Hal).
  destruct (align_some_raises querySeq (items refSeqsDict))
    as ([k' s'] & Hin & Hal' & Hmap).
  { exists (k, s). split; [by apply elem_of_items|done]. }
  exists k', s'. split_and!; [by apply elem_of_items|done|].
  unfold alignAnnotate.alignAnnotateEachSeqMMindels. by rewrite Hmap.
Qed.

Lemma MMindels_no_reference querySeq startPos refPosDict :
  alignAnnotateEachSeqMMindels querySeq ∅ startPos refPosDict
  = raise (ValueError "min() arg is an empty sequence").
Proof.
  unfold alignAnnotate.alignAnnotateEachSeqMMindels.
  rewrite (proj2 (items_nil (∅ : gmap string string)) eq_refl).
  cbn [mapM]. rewrite bind_ret.
  unfold alignAnnotate.hamDictMMindels, alignAnnotate.values.
  change (dict_of []) with (∅ : gmap string (string * string)).
  rewrite (proj2 (items_nil (∅ : gmap string (string * string))) eq_refl).
  change (dict_of (_ <$> [])) with (∅ : gmap string Z).
  by rewrite (proj2 (items_nil (∅ : gmap string Z)) eq_refl).
Qed.

Lemma MMindels_select querySeq refSeqsDict startPos refPosDict :
  let alignmentsDict := alignmentsOf querySeq refSeqsDict in
  let hamDict := hamDictMMindels alignmentsDict in
  refSeqsDict ≠ ∅ →
  (∀ k refSeq, refSeqsDict !! k = Some refSeq →
               is_Some (alignEmbossNeedle querySeq refSeq)) →
  ∃ minHam matchID others al,
    first_min hamDict matchID minHam ∧
    (∀ k, k ∈ others ↔ k ≠ matchID ∧ hamDict !! k = Some minHam) ∧
    alignmentsDict !! matchID = Some al ∧
    alignAnnotateEachSeqMMindels querySeq refSeqsDict startPos refPosDict
    = (if bool_decide (others ≠ []) then [warnMMindels] else [],
       match refPosDict !! matchID with
       | Some refPos =>
           let '(listMM, listIn, listDel) :=
             findMismatchesAndIndels al.1 al.2 startPos refPos in
           inr (makeAnnotation matchID (Int (llen listMM))
                  (Int (llen listIn)) (Int (llen listDel))
                  listMM listIn listDel)
       | None => inl (KeyError matchID)
       end).
Proof.
  intros alignmentsDict hamDict Hne Hall.
  destruct (align_all_returns querySeq (items refSeqsDict))
    as (alignments & Hmap & Hkeys & Hals).
  { intros [k s] Hin%elem_of_items. by eapply Hall. }
  assert (dict_of alignments = alignmentsDict) as Hdict.
  { apply map_eq. intros k. apply option_eq. intros al.
    rewrite dict_of_lookup by (rewrite Hkeys; apply NoDup_items).
    unfold alignmentsDict, alignmentsOf. rewrite lookup_omap, Hals.
    rewrite bind_Some. by setoid_rewrite elem_of_items. }
  assert (hamDict ≠ ∅) as Hne'.
  { apply map_choose in Hne as (k & s & Hk).
    destruct (Hall k s Hk) as [al Hal].
    intros Hempty. assert (hamDict !! k = Some (hamming al.1 al.2)) as Hh.
    { apply hamDictMMindels_lookup. exists al. split; [|done].
      unfold alignmentsDict, alignmentsOf. by rewrite lookup_omap, Hk. }
    by rewrite Hempty, lookup_empty in Hh. }
  destruct (select_min hamDict Hne')
    as (minHam & matchID & others & Hmin & Hids & Hfirst & Hothers).
  pose proof Hfirst as [[Hk _] _].
  apply hamDictMMindels_lookup in Hk as (al & Hal & Hham).
  exists minHam, matchID, others, al. split_and!; try done.
  unfold alignAnnotate.alignAnnotateEachSeqMMindels.
  rewrite Hmap, bind_ret, Hdict. fold hamDict.
  rewrite Hmin, bind_ret, Hids.
  assert (bool_decide (llen (matchID :: others) > 1)
          = bool_decide (others ≠ [])) as ->.
  { apply bool_decide_ext. unfold llen. destruct others; simpl; [|split; [done|lia]].
    split; [lia|done]. }
  assert (∀ (warn : py unit) out,
    warn = (out, inr tt) →
    bind warn (λ _,
      let! matchID := first (matchID :: others) in
      let! al := getitem alignmentsDict matchID in
      let! refPos := getitem refPosDict matchID in
      let '(listMM, listIn, listDel) :=
        findMismatchesAndIndels al.1 al.2 startPos refPos in
      ret (makeAnnotation matchID (Int (llen listMM)) (Int (llen listIn))
             (Int (llen listDel)) listMM listIn listDel))
    = (out,
       match refPosDict !! matchID with
       | Some refPos =>
           let '(listMM, listIn, listDel) :=
             findMismatchesAndIndels al.1 al.2 startPos refPos in
           inr (makeAnnotation matchID (Int (llen listMM))
                  (Int (llen listIn)) (Int (llen listDel))
                  listMM listIn listDel)
       | None => inl (KeyError matchID)
       end)) as Hrun.
  { intros warn out ->. unfold bind at 1.
    change (first (matchID :: others)) with (ret matchID).
    rewrite bind_ret. unfold getitem. rewrite Hal, bind_ret.
    destruct (refPosDict !! matchID) as [refPos|]; simpl;
      [|by rewrite app_nil_r].
    destruct (findMismatchesAndIndels al.1 al.2 startPos refPos) as [[? ?] ?].
    simpl. by rewrite app_nil_r. }
  destruct (bool_decide (others ≠ [])); by apply Hrun.
Qed.

End MatcherFacts.

(** ** Facts about strings: digits, separators, splitting *)

Lemma string_app_cons c s1 s2 : String c s1 +:+ s2 = String c (s1 +:+ s2).
Proof. reflexivity. Qed.

Lemma string_app_nil_l s : "" +:+ s = s.
Proof. reflexivity. Qed.

Lemma string_app_nil_r s : s +:+ "" = s.
Proof.
  induction s as [|c s IH]; [done|]. by rewrite string_app_cons, IH.
Qed.

Lemma string_app_assoc s1 s2 s3 : (s1 +:+ s2) +:+ s3 = s1 +:+ (s2 +:+ s3).
Proof.
  induction s1 as [|c s1 IH]; [done|]. by rewrite !string_app_cons, IH.
Qed.

Lemma all_chars_app P s1 s2 :
  all_chars P (s1 +:+ s2) = all_chars P s1 && all_chars P s2.
Proof.
  induction s1 as [|c s1 IH]; [done|].
  rewrite string_app_cons. simpl. by rewrite IH, andb_assoc.
Qed.

Lemma has_char_app P s1 s2 :
  has_char P (s1 +:+ s2) = has_char P s1 || has_char P s2.
Proof. unfold has_char. by rewrite all_chars_app, negb_andb. Qed.

Lemma all_chars_impl (P Q : ascii → bool) s :
  (∀ c, P c = true → Q c = true) → all_chars P s = true → all_chars Q s = true.
Proof.
  intros HPQ. induction s as [|c s IH]; simpl; [done|].
  intros [Hc Hs]%andb_true_iff. apply andb_true_iff. auto.
Qed.

Lemma pretty_N_char_digit d : is_digit (pretty_N_char d) = true.
Proof. unfold pretty_N_char. by repeat case_match. Qed.

(** The digits that [pretty_N_go] puts in front of its accumulator. *)
Lemma pretty_N_go_digits (x : N) (s : string) :
  ∃ t, pretty_N_go x s = t +:+ s ∧ all_chars is_digit t = true ∧
       ((0 < x)%N → t ≠ "").
Proof.
  revert s. induction (N.lt_wf_0 x) as [x _ IH]; intros s.
  destruct (decide (x = 0%N)) as [->|Hx].
  - exists "". rewrite pretty_N_go_0. split_and!; [done|done|lia].
  - rewrite pretty_N_go_step by lia.
    destruct (IH (x `div` 10)%N) with (s := String (pretty_N_char (x `mod` 10)) s)
      as (t & -> & Ht & _); [apply N.div_lt; lia|].
    exists (t +:+ String (pretty_N_char (x `mod` 10)) "").
    split_and!.
    + by rewrite string_app_assoc.
    + rewrite all_chars_app, Ht. simpl. by rewrite pretty_N_char_digit.
    + intros _. by destruct t.
Qed.

Lemma pretty_N_digits (x : N) :
  all_chars is_digit (pretty x) = true ∧ pretty x ≠ "".
Proof.
  unfold pretty, pretty_N. case_decide as Hx; [done|].
  destruct (pretty_N_go_digits x "") as (t & -> & Ht & Hne).
  rewrite string_app_nil_r. split; [done|]. apply Hne. lia.
Qed.

(** [str] of an integer: an optional sign, then at least one digit. *)
Lemma pretty_Z_shape (z : Z) :
  ∃ sign digits, pretty z = sign +:+ digits ∧ (sign = "" ∨ sign = "-") ∧
                 all_chars is_digit digits = true ∧ digits ≠ "".
Proof.
  destruct z as [|p|p]; unfold pretty, pretty_Z.
  - exists "", "0". by split_and!; [|left|..].
  - exists "", (pretty (Npos p)). destruct (pretty_N_digits (Npos p)).
    by split_and!; [|left|..].
  - exists "-", (pretty (Npos p)). destruct (pretty_N_digits (Npos p)).
    by split_and!; [|right|..].
Qed.

Lemma pretty_Z_no_colon (z : Z) :
  all_chars (λ c, negb (is_colon c)) (pretty z) = true.
Proof.
  destruct (pretty_Z_shape z) as (sign & digits & -> & Hsign & Hd & _).
  rewrite all_chars_app. apply andb_true_iff. split.
  - by destruct Hsign as [-> | ->].
  - eapply all_chars_impl; [|done]. intros c.
    unfold is_digit, is_colon. destruct (Ascii.eqb_spec c ":") as [->|]; done.
Qed.

Lemma pretty_Z_has_digit (z : Z) : has_char is_digit (pretty z) = true.
Proof.
  destruct (pretty_Z_shape z) as (sign & digits & -> & _ & Hd & Hne).
  rewrite has_char_app. apply orb_true_iff. right.
  destruct digits as [|c digits]; [done|]. simpl in Hd.
  apply andb_true_iff in Hd as [Hc _]. unfold has_char. simpl. by rewrite Hc.
Qed.

Lemma pretty_Z_not_nan (z : Z) : pretty z ≠ "nan".
Proof.
  intros Heq. pose proof (pretty_Z_has_digit z) as Hd. by rewrite Heq in Hd.
Qed.

Lemma split_no_sep sep s :
  all_chars (λ c, negb (Ascii.eqb c sep)) s = true → split sep s = [s].
Proof.
  induction s as [|c s IH]; simpl; [done|].
  intros [Hc Hs]%andb_true_iff. apply negb_true_iff in Hc. rewrite Hc.
  by rewrite IH.
Qed.

Lemma split_app_sep sep s1 s2 :
  all_chars (λ c, negb (Ascii.eqb c sep)) s1 = true →
  split sep (s1 +:+ String sep s2) = s1 :: split sep s2.
Proof.
  induction s1 as [|c s1 IH].
  - intros _. rewrite string_app_nil_l. simpl. by rewrite Ascii.eqb_refl.
  - rewrite string_app_cons. simpl.
    intros [Hc Hs]%andb_true_iff. apply negb_true_iff in Hc. rewrite Hc.
    by rewrite IH.
Qed.

Lemma split_nonempty sep s : split sep s ≠ [].
Proof.
  destruct s as [|c s]; simpl; [done|].
  destruct (Ascii.eqb c sep); [done|]. by destruct (split sep s).
Qed.

Lemma split_two_fields sep s1 s2 :
  ∃ f f' fs, split sep (s1 +:+ String sep s2) = f :: f' :: fs.
Proof.
  induction s1 as [|c s1 (f & f' & fs & IH)].
  - rewrite string_app_nil_l. simpl. rewrite Ascii.eqb_refl.
    destruct (split sep s2) as [|f' fs] eqn:Hsp; [by apply split_nonempty in Hsp|].
    by exists "", f', fs.
  - rewrite string_app_cons. simpl. rewrite IH.
    destruct (Ascii.eqb c sep); eauto.
Qed.

(** The last field of a string is what follows its last separator. *)
Lemma last_split_app_sep sep s1 s2 :
  all_chars (λ c, negb (Ascii.eqb c sep)) s2 = true →
  last (split sep (s1 +:+ String sep s2)) = Some s2.
Proof.
  intros Hs2. induction s1 as [|c s1 IH].
  - rewrite string_app_nil_l. simpl. by rewrite Ascii.eqb_refl, split_no_sep.
  - rewrite string_app_cons. simpl.
    destruct (split_two_fields sep s1 s2) as (f & f' & fs & Hsp).
    rewrite Hsp in *. destruct (Ascii.eqb c sep); by rewrite last_cons_cons.
Qed.

Lemma all_chars_join P sep (l : list string) :
  all_chars P sep = true → Forall (λ f, all_chars P f = true) l →
  all_chars P (join sep l) = true.
Proof.
  intros Hsep Hall. induction Hall as [|f l Hf Hall IH]; [done|].
  destruct l as [|f' l]; [done|].
  change (join sep (f :: f' :: l)) with (f +:+ sep +:+ join sep (f' :: l)).
  by rewrite !all_chars_app, Hf, Hsep, IH.
Qed.

Lemma str_no_colon (x : num) :
  all_chars (λ c, negb (is_colon c)) (str x) = true.
Proof. destruct x; [apply pretty_Z_no_colon|done]. Qed.

(** Joining fields that are free of the separator, then splitting, gives
    the fields back. *)
Lemma split_join sep (fields : list string) :
  fields ≠ [] →
  Forall (λ f, all_chars (λ c, negb (Ascii.eqb c sep)) f = true) fields →
  split sep (join (String sep "") fields) = fields.
Proof.
  intros Hne Hall. induction Hall as [|f fields Hf Hall IH]; [done|].
  destruct fields as [|f' fields].
  - by apply split_no_sep.
  - change (join (String sep "") (f :: f' :: fields))
      with (f +:+ String sep "" +:+ join (String sep "") (f' :: fields)).
    change (String sep "" +:+ ?s) with (String sep s).
    rewrite split_app_sep by done. by rewrite IH.
Qed.

(** ** Facts about the Hamming distance *)

Lemma hamming_refl s : hamming s s = 0.
Proof. induction s as [|c s IH]; simpl; [done|]. by rewrite Ascii.eqb_refl. Qed.

Lemma hamming_nonneg s1 s2 : 0 ≤ hamming s1 s2.
Proof.
  revert s2. induction s1 as [|c1 s1 IH]; intros [|c2 s2]; simpl; try lia.
  specialize (IH s2). destruct (Ascii.eqb c1 c2); lia.
Qed.

Lemma hamming_le_len s1 s2 : hamming s1 s2 ≤ len s1.
Proof.
  unfold len. revert s2. induction s1 as [|c1 s1 IH]; intros [|c2 s2]; simpl;
    try lia.
  specialize (IH s2). destruct (Ascii.eqb c1 c2); lia.
Qed.

(** Two strings of one length at distance [0] are the same string. *)
Lemma hamming_zero s1 s2 : len s1 = len s2 → hamming s1 s2 = 0 → s1 = s2.
Proof.
  unfold len. revert s2. induction s1 as [|c1 s1 IH]; intros [|c2 s2]; simpl;
    try done; try lia.
  intros Hlen Hham. pose proof (hamming_nonneg s1 s2).
  destruct (Ascii.eqb_spec c1 c2) as [->|]; [|lia].
  f_equal. apply IH; lia.
Qed.

(** ** The dispatcher and the formatter *)

Lemma exact_hit_or_not (querySeq : string) (refSeqsDict : gmap string string) :
  (∃ k, refSeqsDict !! k = Some querySeq) ∨
  (∀ k, refSeqsDict !! k ≠ Some querySeq).
Proof.
  destruct (decide (Exists (λ kv, kv.2 = querySeq) (map_to_list refSeqsDict)))
    as [Hex|Hno].
  - left. apply Exists_exists in Hex as ([k s] & Hin & Hs). simpl in Hs.
    subst s. exists k. by apply elem_of_map_to_list.
  - right. intros k Hk. apply Hno, Exists_exists. exists (k, querySeq).
    split; [by apply elem_of_map_to_list|done].
Qed.

Section DispatchFacts.

Variable iter_order : ∀ V : Type, list (string * V) → list (string * V).
Hypothesis iter_order_perm :
  ∀ V (l : list (string * V)), iter_order V l ≡ₚ l.
Variable findMismatches : string → string → Z → list Z → list string.
Variable alignEmbossNeedle : string → string → option (string * string).
Variable findMismatchesAndIndels :
  string → string → Z → list Z → list string * list string * list string.

Abbreviation items := (items iter_order).
Abbreviation hamDictMMonly := (hamDictMMonly iter_order).
Abbreviation hamDictMMindels := (hamDictMMindels iter_order).
Abbreviation alignmentsOf := (alignmentsOf alignEmbossNeedle).
Abbreviation alignAnnotateEachSeqMMonly :=
  (alignAnnotateEachSeqMMonly iter_order findMismatches).
Abbreviation alignAnnotateEachSeqMMindels :=
  (alignAnnotateEachSeqMMindels iter_order alignEmbossNeedle
     findMismatchesAndIndels).
Abbreviation alignAnnotateEachSeq :=
  (alignAnnotateEachSeq iter_order findMismatches alignEmbossNeedle
     findMismatchesAndIndels).

Lemma no_exact_hit querySeq refSeqsDict startPos refPosDict MMcutoff indelMode :
  (∀ k, refSeqsDict !! k ≠ Some querySeq) →
  alignAnnotateEachSeq querySeq refSeqsDict startPos refPosDict MMcutoff
    indelMode
  = if indelMode
    then alignAnnotateEachSeqMMindels querySeq refSeqsDict startPos refPosDict
    else alignAnnotateEachSeqMMonly querySeq refSeqsDict startPos refPosDict
           (effectiveCutoff querySeq MMcutoff).
Proof.
  intros Hno. unfold alignAnnotate.alignAnnotateEachSeq.
  destruct (list_find _ _) as [[i [k s]]|] eqn:Hfind.
  - apply list_find_Some in Hfind as (Hi & Hs & _). simpl in Hs. subst s.
    apply list_elem_of_lookup_2, (elem_of_items _ iter_order_perm) in Hi.
    by destruct (Hno k).
  - by destruct indelMode.
Qed.

Lemma exact_hit querySeq refSeqsDict startPos refPosDict MMcutoff indelMode k :
  refSeqsDict !! k = Some querySeq →
  ∃ refSeqID i,
    items refSeqsDict !! i = Some (refSeqID, querySeq) ∧
    (∀ j kv, items refSeqsDict !! j = Some kv → (j < i)%nat →
             kv.2 ≠ querySeq) ∧
    alignAnnotateEachSeq querySeq refSeqsDict startPos refPosDict MMcutoff
      indelMode
    = ret (makeAnnotation refSeqID (Int 0) (Int 0) (Int 0) [] [] []).
Proof.
  intros Hk. unfold alignAnnotate.alignAnnotateEachSeq.
  destruct (list_find _ _) as [[i [k' s]]|] eqn:Hfind.
  - apply list_find_Some in Hfind as (Hi & Hs & Hbefore). simpl in Hs. subst s.
    exists k', i. split_and!; [done| |done].
    intros j kv Hj Hlt Heq. by apply (Hbefore j kv).
  - apply list_find_None in Hfind. rewrite Forall_forall in Hfind.
    destruct (Hfind (k, querySeq)); [|done].
    by apply (elem_of_items _ iter_order_perm).
Qed.

Lemma makeAnnotation_fields label numMM numIn numDel listMM listIn listDel :
  makeAnnotation label numMM numIn numDel listMM listIn listDel
  = label +:+ ":" +:+ str numMM +:+ ":" +:+ str numIn +:+ ":" +:+ str numDel
    +:+ ":" +:+ join "," listMM +:+ ":" +:+ join "," listIn
    +:+ ":" +:+ join "," listDel.
Proof. reflexivity. Qed.

(** An annotation that carries an integer count differs from [NA]. *)
Lemma makeAnnotation_Int_not_NA label z numIn numDel listMM listIn listDel :
  makeAnnotation label (Int z) numIn numDel listMM listIn listDel ≠ NA.
Proof.
  rewrite makeAnnotation_fields. intros Heq.
  assert (has_char is_digit NA = true) as Hd; [|done].
  rewrite <-Heq, !has_char_app. simpl str. rewrite pretty_Z_has_digit.
  by rewrite !orb_true_r.
Qed.

End DispatchFacts.

(** ** The matchers under two iteration orders *)

Section TwoOrders.

Variables iter_order iter_order' :
  ∀ V : Type, list (string * V) → list (string * V).
Hypothesis iter_order_perm :
  ∀ V (l : list (string * V)), iter_order V l ≡ₚ l.
Hypothesis iter_order_perm' :
  ∀ V (l : list (string * V)), iter_order' V l ≡ₚ l.
Variable findMismatches : string → string → Z → list Z → list string.
Variable alignEmbossNeedle : string → string → option (string * string).
Variable findMismatchesAndIndels :
  string → string → Z → list Z → list string * list string * list string.

Lemma hamDictMMonly_order querySeq refSeqsDict :
  hamDictMMonly iter_order' querySeq refSeqsDict
  = hamDictMMonly iter_order querySeq refSeqsDict.
Proof.
  apply map_eq. intros k. apply option_eq. intros h.
  by rewrite !hamDictMMonly_lookup.
Qed.

Lemma hamDictMMindels_order alignmentsDict :
  hamDictMMindels iter_order' alignmentsDict
  = hamDictMMindels iter_order alignmentsDict.
Proof.
  apply map_eq. intros k. apply option_eq. intros h.
  by rewrite !hamDictMMindels_lookup.
Qed.

Lemma first_min_order (hamDict : gmap string Z) k h :
  iter_order' Z (map_to_list hamDict) = iter_order Z (map_to_list hamDict) →
  first_min iter_order' hamDict k h → first_min iter_order hamDict k h.
Proof.
  intros Hsame [Hmin (l1 & l2 & Hl & Hpre)]. split; [done|].
  exists l1, l2. split; [|done]. unfold items in *. by rewrite <-Hsame.
Qed.

Lemma others_nil_order (hamDict : gmap string Z) matchID minHam
    (others others' : list string) :
  (∀ k, k ∈ others ↔ k ≠ matchID ∧ hamDict !! k = Some minHam) →
  (∀ k, k ∈ others' ↔ k ≠ matchID ∧ hamDict !! k = Some minHam) →
  bool_decide (others' ≠ []) = bool_decide (others ≠ []).
Proof.
  intros Ho Ho'. apply bool_decide_ext.
  assert (∀ k, k ∈ others' ↔ k ∈ others) as Hiff
    by (intros k; by rewrite Ho, Ho').
  destruct others as [|x others], others' as [|x' others']; try done.
  - assert (x' ∈ []) as ?%elem_of_nil; [|done]. apply Hiff. by left.
  - assert (x ∈ []) as ?%elem_of_nil; [|done]. apply Hiff. by left.
Qed.

(** The outcome of the mismatch-only matcher depends on the iteration order
    only through the order of its distance dictionary. *)
Lemma MMonly_order querySeq refSeqsDict startPos refPosDict MMcutoff :
  let hamDict := hamDictMMonly iter_order querySeq refSeqsDict in
  iter_order' Z (map_to_list hamDict) = iter_order Z (map_to_list hamDict) →
  alignAnnotateEachSeqMMonly iter_order' findMismatches querySeq refSeqsDict
    startPos refPosDict MMcutoff
  = alignAnnotateEachSeqMMonly iter_order findMismatches querySeq refSeqsDict
      startPos refPosDict MMcutoff.
Proof.
  intros hamDict Hsame.
  destruct (decide (hamDict = ∅)) as [He|Hne].
  - rewrite !MMonly_no_candidate; try done.
    by rewrite hamDictMMonly_order.
  - destruct (MMonly_candidates iter_order iter_order_perm findMismatches
                querySeq refSeqsDict startPos refPosDict MMcutoff Hne)
      as (minHam & matchID & others & refSeq & Hfirst & Hothers & Hm & _ & _
          & ->).
    destruct (MMonly_candidates iter_order' iter_order_perm' findMismatches
                querySeq refSeqsDict startPos refPosDict MMcutoff)
      as (minHam' & matchID' & others' & refSeq' & Hfirst' & Hothers' & Hm'
          & _ & _ & ->).
    { by rewrite hamDictMMonly_order. }
    rewrite hamDictMMonly_order in Hfirst', Hothers'.
    apply first_min_order in Hfirst'; [|done].
    destruct (first_min_unique iter_order _ _ _ _ _ Hfirst Hfirst')
      as [<- <-].
    assert (refSeq' = refSeq) as -> by congruence.
    by rewrite (others_nil_order _ _ _ _ _ Hothers Hothers').
Qed.

(** The same for the indel matcher, once the aligner returns on every
    reference. *)
Lemma MMindels_order querySeq refSeqsDict startPos refPosDict :
  let hamDict :=
    hamDictMMindels iter_order (alignmentsOf alignEmbossNeedle querySeq
                                  refSeqsDict) in
  (∀ k refSeq, refSeqsDict !! k = Some refSeq →
               is_Some (alignEmbossNeedle querySeq refSeq)) →
  iter_order' Z (map_to_list hamDict) = iter_order Z (map_to_list hamDict) →
  alignAnnotateEachSeqMMindels iter_order' alignEmbossNeedle
    findMismatchesAndIndels querySeq refSeqsDict startPos refPosDict
  = alignAnnotateEachSeqMMindels iter_order alignEmbossNeedle
      findMismatchesAndIndels querySeq refSeqsDict startPos refPosDict.
Proof.
  intros hamDict Hall Hsame.
  destruct (decide (refSeqsDict = ∅)) as [->|Hne].
  - by rewrite !MMindels_no_reference.
  - destruct (MMindels_select iter_order iter_order_perm alignEmbossNeedle
                findMismatchesAndIndels querySeq refSeqsDict startPos
                refPosDict Hne Hall)
      as (minHam & matchID & others & al & Hfirst & Hothers & Hal & ->).
    destruct (MMindels_select iter_order' iter_order_perm' alignEmbossNeedle
                findMismatchesAndIndels querySeq refSeqsDict startPos
                refPosDict Hne Hall)
      as (minHam' & matchID' & others' & al' & Hfirst' & Hothers' & Hal'
          & ->).
    rewrite hamDictMMindels_order in Hfirst', Hothers'.
    apply first_min_order in Hfirst'; [|done].
    destruct (first_min_unique iter_order _ _ _ _ _ Hfirst Hfirst')
      as [<- <-].
    assert (al' = al) as -> by congruence.
    by rewrite (others_nil_order _ _ _ _ _ Hothers Hothers').
Qed.

End TwoOrders.

(** ** Properties of the matching engine *)

Section Engine.

Variable iter_order : ∀ V : Type, list (string * V) → list (string * V).
Hypothesis iter_order_perm :
  ∀ V (l : list (string * V)), iter_order V l ≡ₚ l.
Variable findMismatches : string → string → Z → list Z → list string.
Variable alignEmbossNeedle : string → string → option (string * string).
Variable findMismatchesAndIndels :
  string → string → Z → list Z → list string * list string * list string.

Abbreviation items := (items iter_order).
Abbreviation first_min := (first_min iter_order).
Abbreviation hamDictMMonly := (hamDictMMonly iter_order).
Abbreviation hamDictMMindels := (hamDictMMindels iter_order).
Abbreviation alignmentsOf := (alignmentsOf alignEmbossNeedle).
Abbreviation alignAnnotateEachSeqMMonly :=
  (alignAnnotateEachSeqMMonly iter_order findMismatches).
Abbreviation alignAnnotateEachSeqMMindels :=
  (alignAnnotateEachSeqMMindels iter_order alignEmbossNeedle
     findMismatchesAndIndels).
Abbreviation alignAnnotateEachSeq :=
  (alignAnnotateEachSeq iter_order findMismatches alignEmbossNeedle
     findMismatchesAndIndels).

(** C1.  A query that is byte-identical to the sequence of a reference [k]
    is annotated, in mismatch-only mode and in indel mode alike and for
    every cutoff, with a reference [refSeqID] of exactly that sequence (the
    first one in the iteration order of the reference dictionary, hence [k]
    itself when no other reference has that sequence), with counts
    [0], [0], [0] and three empty lists: the string [refSeqID:0:0:0:::].
    Nothing is printed, and the outcome is the same whatever the mismatch
    lister and the aligner are, even an aligner that raises on every call
    and a position dictionary without any entry: neither approximate
    matcher takes part. *)
Theorem exact_match_short_circuit querySeq refSeqsDict startPos refPosDict
    MMcutoff indelMode k :
  refSeqsDict !! k = Some querySeq →
  ∃ refSeqID i,
    refSeqsDict !! refSeqID = Some querySeq ∧
    items refSeqsDict !! i = Some (refSeqID, querySeq) ∧
    (∀ j kv, items refSeqsDict !! j = Some kv → (j < i)%nat →
             kv.2 ≠ querySeq) ∧
    ((∀ k', refSeqsDict !! k' = Some querySeq → k' = k) → refSeqID = k) ∧
    alignAnnotateEachSeq querySeq refSeqsDict startPos refPosDict MMcutoff
      indelMode
    = ([], inr (makeAnnotation refSeqID (Int 0) (Int 0) (Int 0) [] [] [])) ∧
    makeAnnotation refSeqID (Int 0) (Int 0) (Int 0) [] [] []
    = refSeqID +:+ ":0:0:0:::".
Proof.
  intros Hk.
  destruct (exact_hit iter_order iter_order_perm findMismatches
              alignEmbossNeedle findMismatchesAndIndels querySeq refSeqsDict
              startPos refPosDict MMcutoff indelMode k Hk)
    as (refSeqID & i & Hi & Hfirst & Hrun).
  assert (refSeqsDict !! refSeqID = Some querySeq) as Hid.
  { by apply (elem_of_items _ iter_order_perm), list_elem_of_lookup_2 with i. }
  exists refSeqID, i. split_and!; [done|done|done| |done|done].
  intros Huniq. by apply Huniq.
Qed.

(** C9.  In mismatch-only mode a cutoff of [0] given on the command line
    and no cutoff at all lead to the same annotation, the same printed
    lines and the same exception if any: in both cases the mismatch-only
    matcher, when it is reached, is called with the length of the query as
    its cutoff. *)
Theorem cutoff_zero_is_no_cutoff querySeq refSeqsDict startPos refPosDict :
  alignAnnotateEachSeq querySeq refSeqsDict startPos refPosDict (Some 0) false
  = alignAnnotateEachSeq querySeq refSeqsDict startPos refPosDict None false
  ∧ ((∀ k, refSeqsDict !! k ≠ Some querySeq) →
     alignAnnotateEachSeq querySeq refSeqsDict startPos refPosDict (Some 0)
       false
     = alignAnnotateEachSeqMMonly querySeq refSeqsDict startPos refPosDict
         (len querySeq)
     ∧ alignAnnotateEachSeq querySeq refSeqsDict startPos refPosDict None
         false
       = alignAnnotateEachSeqMMonly querySeq refSeqsDict startPos refPosDict
           (len querySeq)).
Proof.
  split; [reflexivity|]. intros Hno.
  by rewrite !(no_exact_hit iter_order iter_order_perm).
Qed.

(** C3.  In mismatch-only mode the outcome for a query is one of: the
    annotation [NA]; the annotation of a reference [matchID] whose sequence
    has exactly the length of the query, so that [matchID] is none of the
    references of another length, whatever their distance; or, when the
    position dictionary has no entry for that same-length reference, the
    error of looking it up.  The same holds of the mismatch-only matcher
    called on its own with any cutoff. *)
Theorem mismatch_only_same_length querySeq refSeqsDict startPos refPosDict
    MMcutoff (cutoff : Z) :
  let same_length_or_NA (m : py string) :=
    result m = inr NA ∨
    ∃ matchID refSeq,
      refSeqsDict !! matchID = Some refSeq ∧
      len refSeq = len querySeq ∧
      (∀ k s, refSeqsDict !! k = Some s → len s ≠ len querySeq →
              matchID ≠ k) ∧
      (refPosDict !! matchID = None ∧ result m = inl (KeyError matchID) ∨
       ∃ listMM,
         result m
         = inr (makeAnnotation matchID (Int (hamming querySeq refSeq))
                  (Int 0) (Int 0) listMM [] [])) in
  same_length_or_NA
    (alignAnnotateEachSeq querySeq refSeqsDict startPos refPosDict MMcutoff
       false) ∧
  same_length_or_NA
    (alignAnnotateEachSeqMMonly querySeq refSeqsDict startPos refPosDict
       cutoff).
Proof.
  intros same_length_or_NA.
  assert (∀ matchID refSeq, refSeqsDict !! matchID = Some refSeq →
            len refSeq = len querySeq →
            ∀ k s, refSeqsDict !! k = Some s → len s ≠ len querySeq →
                   matchID ≠ k) as Hother.
  { intros matchID refSeq Hm Hlen k s Hk Hne ->. congruence. }
  assert (∀ c, same_length_or_NA
            (alignAnnotateEachSeqMMonly querySeq refSeqsDict startPos
               refPosDict c)) as HMM.
  { intros c.
    destruct (decide (hamDictMMonly querySeq refSeqsDict = ∅)) as [He|Hne].
    - left. by rewrite MMonly_no_candidate.
    - destruct (MMonly_candidates iter_order iter_order_perm findMismatches
                  querySeq refSeqsDict startPos refPosDict c Hne)
        as (minHam & matchID & others & refSeq & _ & _ & Hm & Hlen & -> & ->).
      destruct (bool_decide _); [|by left].
      right. exists matchID, refSeq. split_and!; [done|done|by eapply Hother|].
      destruct (refPosDict !! matchID); [right; eauto|by left]. }
  split; [|apply HMM].
  destruct (exact_hit_or_not querySeq refSeqsDict) as [[k Hk]|Hno].
  - destruct (exact_hit iter_order iter_order_perm findMismatches
                alignEmbossNeedle findMismatchesAndIndels querySeq
                refSeqsDict startPos refPosDict MMcutoff false k Hk)
      as (refSeqID & i & Hi & _ & ->).
    apply list_elem_of_lookup_2, (elem_of_items _ iter_order_perm) in Hi.
    right. exists refSeqID, querySeq. split_and!; [done|done|by eapply Hother|].
    right. exists []. by rewrite hamming_refl.
  - rewrite (no_exact_hit iter_order iter_order_perm) by done.
    apply HMM.
Qed.

(** C4, amended.  Let two different candidates attain the least distance
    [h] of the distance dictionary, and let the position dictionary cover
    the references.  The mismatch-only matcher then selects the first key
    at distance [h] in the iteration order of that dictionary and prints
    its warning, provided [h] does not exceed the cutoff; when [h] exceeds
    the cutoff it prints nothing and answers [NA].  The indel matcher, once
    the aligner returns on every reference, always prints its warning and
    selects the first key at the least gapped distance.  In both matchers
    the outcome is a function of the query, the references and the
    iteration order of the distance dictionary: two iteration orders that
    agree on that dictionary give the same outcome. *)
Theorem tie_break_first_minimum querySeq refSeqsDict startPos refPosDict
    MMcutoff :
  (∀ k, is_Some (refSeqsDict !! k) → is_Some (refPosDict !! k)) →
  (let hamDict := hamDictMMonly querySeq refSeqsDict in
   ∀ k1 k2 h,
     k1 ≠ k2 → attains_min hamDict k1 h → attains_min hamDict k2 h →
     ∃ matchID refSeq refPos,
       first_min hamDict matchID h ∧
       refSeqsDict !! matchID = Some refSeq ∧
       refPosDict !! matchID = Some refPos ∧
       alignAnnotateEachSeqMMonly querySeq refSeqsDict startPos refPosDict
         MMcutoff
       = if bool_decide (h ≤ MMcutoff) then
           ([warnMMonly],
            inr (makeAnnotation matchID (Int h) (Int 0) (Int 0)
                   (findMismatches querySeq refSeq startPos refPos) [] []))
         else ([], inr NA)) ∧
  ((∀ k refSeq, refSeqsDict !! k = Some refSeq →
                is_Some (alignEmbossNeedle querySeq refSeq)) →
   let hamDict := hamDictMMindels (alignmentsOf querySeq refSeqsDict) in
   ∀ k1 k2 h,
     k1 ≠ k2 → attains_min hamDict k1 h → attains_min hamDict k2 h →
     ∃ matchID al refPos,
       first_min hamDict matchID h ∧
       alignmentsOf querySeq refSeqsDict !! matchID = Some al ∧
       refPosDict !! matchID = Some refPos ∧
       alignAnnotateEachSeqMMindels querySeq refSeqsDict startPos refPosDict
       = ([warnMMindels],
          inr (let '(listMM, listIn, listDel) :=
                 findMismatchesAndIndels al.1 al.2 startPos refPos in
               makeAnnotation matchID (Int (llen listMM))
                 (Int (llen listIn)) (Int (llen listDel))
                 listMM listIn listDel))) ∧
  (∀ iter_order' : ∀ V : Type, list (string * V) → list (string * V),
     (∀ V (l : list (string * V)), iter_order' V l ≡ₚ l) →
     (iter_order' Z (map_to_list (hamDictMMonly querySeq refSeqsDict))
      = iter_order Z (map_to_list (hamDictMMonly querySeq refSeqsDict)) →
      alignAnnotate.alignAnnotateEachSeqMMonly iter_order' findMismatches
        querySeq refSeqsDict startPos refPosDict MMcutoff
      = alignAnnotateEachSeqMMonly querySeq refSeqsDict startPos refPosDict
          MMcutoff) ∧
     ((∀ k refSeq, refSeqsDict !! k = Some refSeq →
                   is_Some (alignEmbossNeedle querySeq refSeq)) →
      iter_order' Z (map_to_list (hamDictMMindels
                                    (alignmentsOf querySeq refSeqsDict)))
      = iter_order Z (map_to_list (hamDictMMindels
                                     (alignmentsOf querySeq refSeqsDict))) →
      alignAnnotate.alignAnnotateEachSeqMMindels iter_order'
        alignEmbossNeedle findMismatchesAndIndels querySeq refSeqsDict
        startPos refPosDict
      = alignAnnotateEachSeqMMindels querySeq refSeqsDict startPos
          refPosDict)).
Proof.
  intros Hcover. split_and!.
  - intros hamDict k1 k2 h Hne Hk1 Hk2.
    assert (hamDict ≠ ∅) as Hnonempty.
    { intros He. destruct Hk1 as [Hk1 _]. by rewrite He, lookup_empty in Hk1. }
    destruct (MMonly_candidates iter_order iter_order_perm findMismatches
                querySeq refSeqsDict startPos refPosDict MMcutoff Hnonempty)
      as (minHam & matchID & others & refSeq & Hfirst & Hothers & Hm & _ & _
          & ->).
    fold hamDict in Hfirst, Hothers.
    assert (minHam = h) as ->
      by (destruct Hfirst; by eapply attains_min_unique_value).
    destruct (Hcover matchID) as [refPos HrefPos]; [by eexists|].
    exists matchID, refSeq, refPos. split_and!; [done..|].
    rewrite HrefPos.
    assert (others ≠ []) as Htie.
    { destruct (decide (k1 = matchID)) as [->|Hk].
      - intros Hnil. assert (k2 ∈ others) as Hin
          by (apply Hothers; split; [done|apply Hk2]).
        rewrite Hnil in Hin. by apply elem_of_nil in Hin.
      - intros Hnil. assert (k1 ∈ others) as Hin
          by (apply Hothers; split; [done|apply Hk1]).
        rewrite Hnil in Hin. by apply elem_of_nil in Hin. }
    by rewrite (bool_decide_eq_true_2 _ Htie).
  - intros Hall hamDict k1 k2 h Hne Hk1 Hk2.
    assert (refSeqsDict ≠ ∅) as Hnonempty.
    { intros ->. destruct Hk1 as [Hk1 _].
      apply hamDictMMindels_lookup in Hk1 as (al & Hal & _); [|done].
      unfold Vocab.alignmentsOf in Hal.
      by rewrite lookup_omap, lookup_empty in Hal. }
    destruct (MMindels_select iter_order iter_order_perm alignEmbossNeedle
                findMismatchesAndIndels querySeq refSeqsDict startPos
                refPosDict Hnonempty Hall)
      as (minHam & matchID & others & al & Hfirst & Hothers & Hal & ->).
    fold hamDict in Hfirst, Hothers.
    assert (minHam = h) as ->
      by (destruct Hfirst; by eapply attains_min_unique_value).
    assert (is_Some (refSeqsDict !! matchID)) as Hin.
    { unfold Vocab.alignmentsOf in Hal. rewrite lookup_omap in Hal.
      destruct (refSeqsDict !! matchID); [by eexists|done]. }
    destruct (Hcover matchID Hin) as [refPos HrefPos].
    exists matchID, al, refPos. split_and!; [done..|].
    rewrite HrefPos.
    assert (others ≠ []) as Htie.
    { destruct (decide (k1 = matchID)) as [->|Hk].
      - intros Hnil. assert (k2 ∈ others) as Hin'
          by (apply Hothers; split; [done|apply Hk2]).
        rewrite Hnil in Hin'. by apply elem_of_nil in Hin'.
      - intros Hnil. assert (k1 ∈ others) as Hin'
          by (apply Hothers; split; [done|apply Hk1]).
        rewrite Hnil in Hin'. by apply elem_of_nil in Hin'. }
    rewrite (bool_decide_eq_true_2 _ Htie).
    by destruct (findMismatchesAndIndels al.1 al.2 startPos refPos) as [[? ?] ?].
  - intros iter_order' Hperm'. split.
    + by apply MMonly_order.
    + by apply MMindels_order.
Qed.

(** What decides between [NA] and an assignment in mismatch-only mode,
    for a query without exact hit: the answer is [NA] exactly when no
    reference has the length of the query or the least distance over the
    references of that length exceeds the cutoff the matcher is called
    with. *)
Lemma mismatch_only_NA_iff querySeq refSeqsDict startPos refPosDict MMcutoff :
  (∀ k, refSeqsDict !! k ≠ Some querySeq) →
  (∀ k, is_Some (refSeqsDict !! k) → is_Some (refPosDict !! k)) →
  ∃ annotation,
    result (alignAnnotateEachSeq querySeq refSeqsDict startPos refPosDict
              MMcutoff false) = inr annotation ∧
    (annotation = NA ↔
     (∀ k refSeq, refSeqsDict !! k = Some refSeq →
                  len querySeq ≠ len refSeq) ∨
     (∃ k h, attains_min (hamDictMMonly querySeq refSeqsDict) k h ∧
             effectiveCutoff querySeq MMcutoff < h)).
Proof.
  intros Hno Hcover. rewrite (no_exact_hit iter_order iter_order_perm) by done.
  destruct (decide (hamDictMMonly querySeq refSeqsDict = ∅)) as [He|Hne].
  - exists NA. rewrite MMonly_no_candidate by done. split; [done|].
    split; [|done]. intros _. left.
    by apply (hamDictMMonly_empty iter_order iter_order_perm).
  - destruct (MMonly_candidates iter_order iter_order_perm findMismatches
                querySeq refSeqsDict startPos refPosDict
                (effectiveCutoff querySeq MMcutoff) Hne)
      as (minHam & matchID & others & refSeq & Hfirst & _ & Hm & Hlen & Hh
          & ->).
    destruct (Hcover matchID) as [refPos ->]; [by eexists|].
    destruct Hfirst as [Hmin _].
    case_bool_decide as Hcut.
    + eexists. split; [done|]. split.
      * by intros ?%makeAnnotation_Int_not_NA.
      * intros [Hnone|(k & h & Hk & Hlt)].
        -- by destruct (Hnone matchID refSeq).
        -- assert (h = minHam) by eauto using attains_min_unique_value. lia.
    + exists NA. split; [done|]. split; [|done]. intros _. right.
      exists matchID, minHam. split; [done|lia].
Qed.

(** With no cutoff, and with a cutoff of [0] alike, a query without exact
    hit is assigned as soon as some reference has its length, although its
    least distance is at least [1]. *)
Lemma falsy_cutoff_assigns querySeq refSeqsDict startPos refPosDict MMcutoff
    k refSeq :
  falsy MMcutoff = true →
  (∀ k', refSeqsDict !! k' ≠ Some querySeq) →
  (∀ k', is_Some (refSeqsDict !! k') → is_Some (refPosDict !! k')) →
  refSeqsDict !! k = Some refSeq → len refSeq = len querySeq →
  ∃ matchID minHam listMM,
    attains_min (hamDictMMonly querySeq refSeqsDict) matchID minHam ∧
    1 ≤ minHam ∧
    result (alignAnnotateEachSeq querySeq refSeqsDict startPos refPosDict
              MMcutoff false)
    = inr (makeAnnotation matchID (Int minHam) (Int 0) (Int 0) listMM [] []).
Proof.
  intros Hfalsy Hno Hcover Hk Hlen.
  rewrite (no_exact_hit iter_order iter_order_perm) by done.
  unfold effectiveCutoff. rewrite Hfalsy.
  assert (hamDictMMonly querySeq refSeqsDict ≠ ∅) as Hne.
  { intros He.
    pose proof (proj1 (hamDictMMonly_empty iter_order iter_order_perm
                         querySeq refSeqsDict) He k refSeq Hk) as Hlen'.
    congruence. }
  destruct (MMonly_candidates iter_order iter_order_perm findMismatches
              querySeq refSeqsDict startPos refPosDict (len querySeq) Hne)
    as (minHam & matchID & others & refSeq' & [Hmin _] & _ & Hm & Hlen' & Hh
        & ->).
  destruct (Hcover matchID) as [refPos ->]; [by eexists|].
  rewrite bool_decide_eq_true_2 by (subst minHam; apply hamming_le_len).
  eexists matchID, minHam, _. split_and!; [done| |done].
  destruct (decide (minHam = 0)) as [Hz|Hnz].
  - destruct (Hno matchID). rewrite Hm. f_equal. symmetry.
    apply hamming_zero; [done|congruence].
  - pose proof (hamming_nonneg querySeq refSeq'). lia.
Qed.

(** In indel mode nothing depends on the cutoff, and with a non-empty
    reference set, an aligner that returns on every reference and a
    position dictionary that covers the references, a query is always
    assigned to a reference. *)
Lemma indel_always_resolved querySeq refSeqsDict startPos refPosDict
    MMcutoff MMcutoff' :
  alignAnnotateEachSeq querySeq refSeqsDict startPos refPosDict MMcutoff true
  = alignAnnotateEachSeq querySeq refSeqsDict startPos refPosDict MMcutoff'
      true ∧
  (refSeqsDict ≠ ∅ →
   (∀ k refSeq, refSeqsDict !! k = Some refSeq →
                is_Some (alignEmbossNeedle querySeq refSeq)) →
   (∀ k, is_Some (refSeqsDict !! k) → is_Some (refPosDict !! k)) →
   ∃ matchID numMM numIn numDel listMM listIn listDel,
     is_Some (refSeqsDict !! matchID) ∧
     result (alignAnnotateEachSeq querySeq refSeqsDict startPos refPosDict
               MMcutoff true)
     = inr (makeAnnotation matchID (Int numMM) (Int numIn) (Int numDel)
              listMM listIn listDel) ∧
     makeAnnotation matchID (Int numMM) (Int numIn) (Int numDel)
       listMM listIn listDel ≠ NA).
Proof.
  split; [reflexivity|]. intros Hne Hall Hcover.
  destruct (exact_hit_or_not querySeq refSeqsDict) as [[k Hk]|Hno].
  - destruct (exact_hit iter_order iter_order_perm findMismatches
                alignEmbossNeedle findMismatchesAndIndels querySeq
                refSeqsDict startPos refPosDict MMcutoff true k Hk)
      as (refSeqID & i & Hi & _ & ->).
    apply list_elem_of_lookup_2, (elem_of_items _ iter_order_perm) in Hi.
    exists refSeqID, 0, 0, 0, [], [], []. split_and!; [by eexists|done|].
    apply makeAnnotation_Int_not_NA.
  - rewrite (no_exact_hit iter_order iter_order_perm) by done.
    destruct (MMindels_select iter_order iter_order_perm alignEmbossNeedle
                findMismatchesAndIndels querySeq refSeqsDict startPos
                refPosDict Hne Hall)
      as (minHam & matchID & others & al & _ & _ & Hal & ->).
    assert (is_Some (refSeqsDict !! matchID)) as Hin.
    { unfold Vocab.alignmentsOf in Hal. rewrite lookup_omap in Hal.
      destruct (refSeqsDict !! matchID); [by eexists|done]. }
    destruct (Hcover matchID Hin) as [refPos ->].
    destruct (findMismatchesAndIndels al.1 al.2 startPos refPos)
      as [[listMM listIn] listDel].
    exists matchID, (llen listMM), (llen listIn), (llen listDel),
      listMM, listIn, listDel.
    split_and!; [done|done|apply makeAnnotation_Int_not_NA].
Qed.

(** In indel mode an aligner that raises on some reference, for a query
    without exact hit, makes the match of the query raise. *)
Lemma indel_aligner_raises querySeq refSeqsDict startPos refPosDict MMcutoff
    k refSeq :
  (∀ k', refSeqsDict !! k' ≠ Some querySeq) →
  refSeqsDict !! k = Some refSeq →
  alignEmbossNeedle querySeq refSeq = None →
  raises (alignAnnotateEachSeq querySeq refSeqsDict startPos refPosDict
            MMcutoff true).
Proof.
  intros Hno Hk Hal.
  rewrite (no_exact_hit iter_order iter_order_perm) by done.
  destruct (MMindels_aligner_raises iter_order iter_order_perm
              alignEmbossNeedle findMismatchesAndIndels querySeq refSeqsDict
              startPos refPosDict)
    as (k' & refSeq' & _ & _ & ->); [eauto|]. by eexists.
Qed.

(** The least distance of the distance dictionary, told on the references. *)
Lemma attains_min_references querySeq refSeqsDict k h :
  attains_min (hamDictMMonly querySeq refSeqsDict) k h ↔
  ∃ refSeq,
    refSeqsDict !! k = Some refSeq ∧ len refSeq = len querySeq ∧
    h = hamming querySeq refSeq ∧
    ∀ k' refSeq', refSeqsDict !! k' = Some refSeq' →
                  len refSeq' = len querySeq → h ≤ hamming querySeq refSeq'.
Proof.
  unfold attains_min. rewrite (hamDictMMonly_lookup _ iter_order_perm). split.
  - intros [(refSeq & Hk & Hlen & ->) Hmin]. exists refSeq.
    split_and!; [done|done|done|].
    intros k' refSeq' Hk' Hlen'. apply (Hmin k').
    apply (hamDictMMonly_lookup _ iter_order_perm). eauto.
  - intros (refSeq & Hk & Hlen & -> & Hmin). split; [eauto|].
    intros k' h' (refSeq' & Hk' & Hlen' & ->)%(hamDictMMonly_lookup
                                                _ iter_order_perm).
    by eapply Hmin.
Qed.

(** The two approximate matchers away from a cutoff of [0].  Let the
    position dictionary cover the references.  In
    mismatch-only mode, for a query without exact hit and a cutoff that is
    absent (then the length of the query) or given and not [0], the query is
    annotated, and the annotation is [NA] exactly when no reference has the
    length of the query or the least Hamming distance over the references of
    that length exceeds the cutoff.  In indel mode the cutoff plays no part;
    when the reference set is not empty and the aligner returns on every
    reference the query is annotated with a reference and never with [NA];
    when the aligner raises on some reference, for a query without exact
    hit, no annotation is produced. *)
Theorem unresolved_iff querySeq refSeqsDict startPos refPosDict MMcutoff :
  (∀ k, is_Some (refSeqsDict !! k) → is_Some (refPosDict !! k)) →
  ((∀ k, refSeqsDict !! k ≠ Some querySeq) →
   MMcutoff ≠ Some 0 →
   let cutoff := default (len querySeq) MMcutoff in
   ∃ annotation,
     result (alignAnnotateEachSeq querySeq refSeqsDict startPos refPosDict
               MMcutoff false) = inr annotation ∧
     (annotation = NA ↔
      (∀ k refSeq, refSeqsDict !! k = Some refSeq →
                   len refSeq ≠ len querySeq) ∨
      (∃ k refSeq,
         refSeqsDict !! k = Some refSeq ∧ len refSeq = len querySeq ∧
         (∀ k' refSeq', refSeqsDict !! k' = Some refSeq' →
                        len refSeq' = len querySeq →
                        hamming querySeq refSeq ≤ hamming querySeq refSeq') ∧
         cutoff < hamming querySeq refSeq))) ∧
  (∀ MMcutoff',
     alignAnnotateEachSeq querySeq refSeqsDict startPos refPosDict MMcutoff
       true
     = alignAnnotateEachSeq querySeq refSeqsDict startPos refPosDict MMcutoff'
         true) ∧
  (refSeqsDict ≠ ∅ →
   (∀ k refSeq, refSeqsDict !! k = Some refSeq →
                is_Some (alignEmbossNeedle querySeq refSeq)) →
   ∃ matchID numMM numIn numDel listMM listIn listDel,
     is_Some (refSeqsDict !! matchID) ∧
     result (alignAnnotateEachSeq querySeq refSeqsDict startPos refPosDict
               MMcutoff true)
     = inr (makeAnnotation matchID (Int numMM) (Int numIn) (Int numDel)
              listMM listIn listDel) ∧
     makeAnnotation matchID (Int numMM) (Int numIn) (Int numDel)
       listMM listIn listDel ≠ NA) ∧
  ((∀ k, refSeqsDict !! k ≠ Some querySeq) →
   (∃ k refSeq, refSeqsDict !! k = Some refSeq ∧
                alignEmbossNeedle querySeq refSeq = None) →
   raises (alignAnnotateEachSeq querySeq refSeqsDict startPos refPosDict
             MMcutoff true)).
Proof.
  intros Hcover. split_and!.
  - intros Hno Hzero cutoff.
    destruct (mismatch_only_NA_iff querySeq refSeqsDict startPos refPosDict
                MMcutoff Hno Hcover) as (annotation & Hrun & Hiff).
    assert (effectiveCutoff querySeq MMcutoff = cutoff) as Hcut.
    { unfold effectiveCutoff, cutoff. destruct MMcutoff as [c|]; [|done].
      simpl. destruct (Z.eqb_spec c 0) as [->|]; done. }
    rewrite Hcut in Hiff.
    exists annotation. split; [done|]. rewrite Hiff. split.
    + intros [Hnone|(k & h & Hk & Hlt)].
      * left. intros k refSeq Hk Hlen. by eapply Hnone.
      * right. apply attains_min_references in Hk
          as (refSeq & Hk & Hlen & -> & Hmin). by exists k, refSeq.
    + intros [Hnone|(k & refSeq & Hk & Hlen & Hmin & Hlt)].
      * left. intros k refSeq Hk Hlen. by eapply Hnone.
      * right. exists k, (hamming querySeq refSeq). split; [|done].
        apply attains_min_references. by exists refSeq.
  - intros MMcutoff'. reflexivity.
  - intros Hne Hall.
    by apply (indel_always_resolved querySeq refSeqsDict startPos refPosDict
                MMcutoff MMcutoff).
  - intros Hno (k & refSeq & Hk & Hal). by eapply indel_aligner_raises.
Qed.

(** C8.  The formatter joins, with colons and in this order, the label,
    the three counts and the three lists, each list joined with commas;
    when no field contains a colon, splitting the annotation at the colons
    gives back exactly these seven fields.  The annotation of an
    unassigned query, which the mismatch-only matcher returns both when no
    reference has the query's length and when the least distance exceeds
    the cutoff, is [NA:nan:nan:nan:::]: label [NA], the marker [nan] in the
    three count fields, three empty lists; and [nan] is the text of no
    integer, so not of [0]. *)
Theorem annotation_format label numMM numIn numDel listMM listIn listDel :
  makeAnnotation label numMM numIn numDel listMM listIn listDel
  = label +:+ ":" +:+ str numMM +:+ ":" +:+ str numIn +:+ ":" +:+ str numDel
    +:+ ":" +:+ join "," listMM +:+ ":" +:+ join "," listIn
    +:+ ":" +:+ join "," listDel
  ∧ (all_chars (λ c, negb (is_colon c)) label = true →
     Forall (λ e, all_chars (λ c, negb (is_colon c)) e = true)
       (listMM ++ listIn ++ listDel)%list →
     split ":" (makeAnnotation label numMM numIn numDel listMM listIn listDel)
     = [label; str numMM; str numIn; str numDel; join "," listMM;
        join "," listIn; join "," listDel])
  ∧ NA = "NA:nan:nan:nan:::"
  ∧ split ":" NA = ["NA"; "nan"; "nan"; "nan"; ""; ""; ""]
  ∧ (∀ z, str (Int z) ≠ str NaN)
  ∧ (∀ querySeq refSeqsDict startPos refPosDict MMcutoff,
       (∀ k refSeq, refSeqsDict !! k = Some refSeq →
                    len querySeq ≠ len refSeq) →
       alignAnnotateEachSeqMMonly querySeq refSeqsDict startPos refPosDict
         MMcutoff = ([], inr "NA:nan:nan:nan:::"))
  ∧ (∀ querySeq refSeqsDict startPos refPosDict MMcutoff k h,
       attains_min (hamDictMMonly querySeq refSeqsDict) k h →
       MMcutoff < h →
       alignAnnotateEachSeqMMonly querySeq refSeqsDict startPos refPosDict
         MMcutoff = ([], inr "NA:nan:nan:nan:::")).
Proof.
  split_and!.
  - reflexivity.
  - intros Hlabel Hlists.
    apply Forall_app in Hlists as [HMM [HIn HDel]%Forall_app].
    unfold makeAnnotation. apply (split_join ":"); [done|].
    repeat (apply Forall_cons; split);
      [done|apply str_no_colon..| | | |done];
      by apply all_chars_join.
  - reflexivity.
  - reflexivity.
  - intros z. apply pretty_Z_not_nan.
  - intros querySeq refSeqsDict startPos refPosDict MMcutoff Hnone.
    apply MMonly_no_candidate.
    by apply (hamDictMMonly_empty iter_order iter_order_perm).
  - intros querySeq refSeqsDict startPos refPosDict MMcutoff k h Hk Hlt.
    assert (hamDictMMonly querySeq refSeqsDict ≠ ∅) as Hne.
    { intros He. destruct Hk as [Hk _]. by rewrite He, lookup_empty in Hk. }
    destruct (MMonly_candidates iter_order iter_order_perm findMismatches
                querySeq refSeqsDict startPos refPosDict MMcutoff Hne)
      as (minHam & matchID & others & refSeq & [Hmin _] & _ & _ & _ & _ & ->).
    assert (minHam = h) as -> by eauto using attains_min_unique_value.
    by rewrite bool_decide_eq_false_2 by lia.
Qed.

End Engine.

(** ** The reference index *)

Lemma readRefSeqs_snoc numbered records record :
  readRefSeqs numbered (records ++ [record])
  = (<[id record := upper (seq record)]> (readRefSeqs numbered records).1,
     <[id record := refPosOf numbered record]> (readRefSeqs numbered records).2).
Proof. unfold readRefSeqs. by rewrite foldl_app. Qed.

Lemma readRefSeqs_lookup numbered records k :
  (readRefSeqs numbered records).1 !! k
  = (λ record, upper (seq record)) <$> last (filter (λ r, id r = k) records)
  ∧ (readRefSeqs numbered records).2 !! k
    = refPosOf numbered <$> last (filter (λ r, id r = k) records).
Proof.
  induction records as [|record records [IH1 IH2]] using rev_ind; [done|].
  rewrite readRefSeqs_snoc, filter_app, filter_cons, filter_nil. simpl.
  destruct (decide (id record = k)) as [<-|Hne].
  - by rewrite !lookup_insert_eq, last_snoc.
  - rewrite !lookup_insert_ne by done. by rewrite app_nil_r.
Qed.

(** C5, amended.  Building the reference index never fails and never looks
    at whether an ID was seen before: for every ID the index holds the
    upper-cased sequence, and the position labels, of the last record that
    carries this ID, and no entry when no record does.  Of two records with
    the same ID the earlier one is dropped without notice: a record that is
    followed by another one with its ID leaves no trace in the index. *)
Theorem duplicate_ids_overwrite numbered records k :
  (readRefSeqs numbered records).1 !! k
  = (λ record, upper (seq record)) <$> last (filter (λ r, id r = k) records)
  ∧ (readRefSeqs numbered records).2 !! k
    = refPosOf numbered <$> last (filter (λ r, id r = k) records)
  ∧ ∀ earlier record later,
      id earlier = id record →
      readRefSeqs numbered (records ++ [earlier] ++ later ++ [record])%list
      = readRefSeqs numbered (records ++ later ++ [record])%list.
Proof.
  destruct (readRefSeqs_lookup numbered records k) as [H1 H2].
  split_and!; [done|done|].
  intros earlier record later Hid.
  assert (∀ l, filter (λ r, id r = id record) (l ++ [record])%list
               = (filter (λ r, id r = id record) l ++ [record])%list) as Hlast.
  { intros l. rewrite filter_app, filter_cons, filter_nil.
    by rewrite decide_True by done. }
  apply injective_projections; apply map_eq; intros k'.
  - rewrite !(proj1 (readRefSeqs_lookup _ _ _)).
    destruct (decide (k' = id record)) as [->|Hne].
    + rewrite !app_assoc, !Hlast. by rewrite !last_snoc.
    + rewrite !filter_app. rewrite (filter_cons _ earlier), filter_nil.
      rewrite decide_False by congruence. done.
  - rewrite !(proj2 (readRefSeqs_lookup _ _ _)).
    destruct (decide (k' = id record)) as [->|Hne].
    + rewrite !app_assoc, !Hlast. by rewrite !last_snoc.
    + rewrite !filter_app. rewrite (filter_cons _ earlier), filter_nil.
      rewrite decide_False by congruence. done.
Qed.


Lemma readRefSeqs_nonempty numbered records :
  records ≠ [] → (readRefSeqs numbered records).1 ≠ ∅.
Proof.
  destruct records as [|r records _] using rev_ind; [done|]. intros _.
  rewrite readRefSeqs_snoc. simpl. apply insert_non_empty.
Qed.

(** ** The exceptions of one match *)

Lemma aligner_returns_or_raises
    (alignEmbossNeedle : string → string → option (string * string))
    (querySeq : string) (refSeqsDict : gmap string string) :
  (∀ k refSeq, refSeqsDict !! k = Some refSeq →
               is_Some (alignEmbossNeedle querySeq refSeq)) ∨
  (∃ k refSeq, refSeqsDict !! k = Some refSeq ∧
               alignEmbossNeedle querySeq refSeq = None).
Proof.
  destruct (decide (Exists (λ kv, alignEmbossNeedle querySeq kv.2 = None)
                      (map_to_list refSeqsDict))) as [Hex|Hno].
  - right. apply Exists_exists in Hex as ([k s] & Hin & Hs).
    exists k, s. split; [by apply elem_of_map_to_list|done].
  - left. intros k s Hk.
    destruct (alignEmbossNeedle querySeq s) as [al|] eqn:Hal; [by eexists|].
    destruct Hno. apply Exists_exists. exists (k, s).
    split; [by apply elem_of_map_to_list|done].
Qed.

Section MatchExceptions.

Variable iter_order : ∀ V : Type, list (string * V) → list (string * V).
Hypothesis iter_order_perm :
  ∀ V (l : list (string * V)), iter_order V l ≡ₚ l.
Variable findMismatches : string → string → Z → list Z → list string.
Variable alignEmbossNeedle : string → string → option (string * string).
Variable findMismatchesAndIndels :
  string → string → Z → list Z → list string * list string * list string.

Abbreviation alignAnnotateEachSeq :=
  (alignAnnotateEachSeq iter_order findMismatches alignEmbossNeedle
     findMismatchesAndIndels).

(** The exceptions of one match, when the position dictionary covers the
    references. *)
Lemma match_exceptions querySeq refSeqsDict startPos refPosDict MMcutoff
    indelMode e :
  (∀ k, is_Some (refSeqsDict !! k) → is_Some (refPosDict !! k)) →
  result (alignAnnotateEachSeq querySeq refSeqsDict startPos refPosDict
            MMcutoff indelMode) = inl e →
  indelMode = true ∧
  (refSeqsDict = ∅ ∧ e = ValueError "min() arg is an empty sequence" ∨
   ∃ k refSeq, refSeqsDict !! k = Some refSeq ∧
               alignEmbossNeedle querySeq refSeq = None ∧
               e = AlignerFailure querySeq refSeq).
Proof.
  intros Hcover Hraise.
  destruct (exact_hit_or_not querySeq refSeqsDict) as [[k Hk]|Hno].
  { destruct (exact_hit iter_order iter_order_perm findMismatches
                alignEmbossNeedle findMismatchesAndIndels querySeq refSeqsDict
                startPos refPosDict MMcutoff indelMode k Hk)
      as (refSeqID & i & _ & _ & Hrun). by rewrite Hrun in Hraise. }
  destruct indelMode.
  - split; [done|].
    destruct (aligner_returns_or_raises alignEmbossNeedle querySeq refSeqsDict)
      as [Hall|Hfail].
    + destruct (decide (refSeqsDict = ∅)) as [->|Hne].
      * left. split; [done|].
        rewrite (no_exact_hit iter_order iter_order_perm) in Hraise by done.
        rewrite MMindels_no_reference in Hraise by done. by injection Hraise.
      * destruct (indel_always_resolved iter_order iter_order_perm
                    findMismatches alignEmbossNeedle findMismatchesAndIndels
                    querySeq refSeqsDict startPos refPosDict MMcutoff MMcutoff)
          as [_ Hres].
        destruct (Hres Hne Hall Hcover)
          as (? & ? & ? & ? & ? & ? & ? & _ & Hrun & _).
        by rewrite Hrun in Hraise.
    + right.
      rewrite (no_exact_hit iter_order iter_order_perm) in Hraise by done.
      destruct (MMindels_aligner_raises iter_order iter_order_perm
                  alignEmbossNeedle findMismatchesAndIndels querySeq
                  refSeqsDict startPos refPosDict Hfail)
        as (k & refSeq & Hk & Hal & Hrun).
      rewrite Hrun in Hraise. injection Hraise as <-. eauto.
  - destruct (mismatch_only_NA_iff iter_order iter_order_perm findMismatches
                alignEmbossNeedle findMismatchesAndIndels querySeq refSeqsDict
                startPos refPosDict MMcutoff Hno Hcover) as (a & Hrun & _).
    by rewrite Hrun in Hraise.
Qed.

End MatchExceptions.

(** ** The batch *)

Section Batch.

Variable iter_order : ∀ V : Type, list (string * V) → list (string * V).
Hypothesis iter_order_perm :
  ∀ V (l : list (string * V)), iter_order V l ≡ₚ l.
Variable findMismatches : string → string → Z → list Z → list string.
Variable alignEmbossNeedle : string → string → option (string * string).
Variable findMismatchesAndIndels :
  string → string → Z → list Z → list string * list string * list string.

Abbreviation annotate :=
  (annotate iter_order findMismatches alignEmbossNeedle
     findMismatchesAndIndels).
Abbreviation allAnnotations :=
  (allAnnotations iter_order findMismatches alignEmbossNeedle
     findMismatchesAndIndels).
Abbreviation main :=
  (main iter_order findMismatches alignEmbossNeedle findMismatchesAndIndels).

(** Both ways of running the batch are the traversal of the rows. *)
Lemma allAnnotations_mapM args refSeqsDict refPosDict allQuerySeqs :
  numCore args ≠ 0 →
  allAnnotations args refSeqsDict refPosDict allQuerySeqs
  = mapM (λ row, annotate args refSeqsDict refPosDict (upper (row_seq row)))
      allQuerySeqs.
Proof.
  intros Hn. unfold alignAnnotate.allAnnotations, Series_apply, Parallel.
  assert (∀ {A B C} (f : B → py C) (g : A → B) (l : list A),
            mapM f (g <$> l) = mapM (f ∘ g) l) as Hfmap.
  { intros A B C f g l. induction l as [|x l IH]; [done|].
    rewrite fmap_cons. simpl. by rewrite IH. }
  destruct (numCore args =? 1); [|rewrite (proj2 (Z.eqb_neq _ _) Hn)];
    by rewrite !Hfmap.
Qed.

Lemma allAnnotations_zero args refSeqsDict refPosDict allQuerySeqs :
  numCore args = 0 →
  raises (allAnnotations args refSeqsDict refPosDict allQuerySeqs).
Proof.
  intros Hn. unfold alignAnnotate.allAnnotations, Parallel. rewrite Hn.
  simpl. by eexists.
Qed.

(** The run returns a column exactly when the number of cores is not [0]
    and every match returns; the column then lists the matches row by row. *)
Lemma allAnnotations_returns args refSeqsDict refPosDict allQuerySeqs
    annotations :
  returns (allAnnotations args refSeqsDict refPosDict allQuerySeqs) annotations
  ↔ numCore args ≠ 0 ∧
    Forall2 (λ row annotation,
               returns (annotate args refSeqsDict refPosDict
                          (upper (row_seq row))) annotation)
      allQuerySeqs annotations.
Proof.
  destruct (decide (numCore args = 0)) as [Hz|Hnz].
  - split; [|by intros [? _]]. intros Hret. exfalso.
    eapply returns_not_raises; [exact Hret|by apply allAnnotations_zero].
  - rewrite allAnnotations_mapM, mapM_returns by done.
    split; [by intros ?|by intros [_ ?]].
Qed.

Lemma allAnnotations_rows args refSeqsDict refPosDict allQuerySeqs annotations :
  returns (allAnnotations args refSeqsDict refPosDict allQuerySeqs) annotations
  → length annotations = length allQuerySeqs ∧
    ∀ i row, allQuerySeqs !! i = Some row →
      ∃ annotation,
        annotations !! i = Some annotation ∧
        returns (annotate args refSeqsDict refPosDict (upper (row_seq row)))
          annotation.
Proof.
  intros Hret. apply allAnnotations_returns in Hret as [_ Hall]. split.
  - symmetry. by eapply Forall2_length.
  - intros i row Hi.
    destruct (Forall2_lookup_l _ _ _ _ _ Hall Hi) as (a & Ha & Hm). eauto.
Qed.


(** C7, amended.  The run produces a column of annotations exactly when the
    number of cores is not [0] and the match of every query returns, and
    then the column has one annotation per row of the input, the [i]-th
    being what the match of the (upper-cased) [i]-th query returns; this
    holds on one core and on several.  When the match of some query raises,
    no column is produced. *)
Theorem batch_order args records allQuerySeqs :
  let dicts := readRefSeqs (numberedMode args) records in
  let matched row annotation :=
    returns (annotate args dicts.1 dicts.2 (upper (row_seq row))) annotation in
  (∀ annotations,
     returns (allAnnotations args dicts.1 dicts.2 allQuerySeqs) annotations ↔
     numCore args ≠ 0 ∧ Forall2 matched allQuerySeqs annotations) ∧
  (∀ annotations,
     returns (allAnnotations args dicts.1 dicts.2 allQuerySeqs) annotations →
     length annotations = length allQuerySeqs ∧
     ∀ i row, allQuerySeqs !! i = Some row →
              ∃ annotation, annotations !! i = Some annotation ∧
                            matched row annotation) ∧
  (∀ row, row ∈ allQuerySeqs →
          raises (annotate args dicts.1 dicts.2 (upper (row_seq row))) →
          raises (allAnnotations args dicts.1 dicts.2 allQuerySeqs) ∧
          raises (main args records allQuerySeqs)).
Proof.
  intros dicts matched.
  split_and!.
  - intros annotations. apply allAnnotations_returns.
  - intros annotations. apply allAnnotations_rows.
  - intros row Hrow Hraises.
    assert (raises (allAnnotations args dicts.1 dicts.2 allQuerySeqs)) as Hall.
    { destruct (decide (numCore args = 0)) as [Hz|Hnz].
      - by apply allAnnotations_zero.
      - rewrite allAnnotations_mapM by done. by eapply mapM_raises. }
    split; [done|]. unfold alignAnnotate.main. by apply bind_raises_l.
Qed.

(** C10.  When the run produces its output column, the column has one entry
    per row; with count mode disabled each entry is the annotation of the
    row's query followed by a colon, so that its last colon-separated field
    is empty, whatever the count column of the row holds; with count mode
    enabled the entry is the annotation, a colon and the text of the row's
    count, which is its last colon-separated field. *)
Theorem count_suffix args records allQuerySeqs out :
  let dicts := readRefSeqs (numberedMode args) records in
  returns (main args records allQuerySeqs) out →
  length out = length allQuerySeqs ∧
  ∀ i row, allQuerySeqs !! i = Some row →
    ∃ annotation written,
      returns (annotate args dicts.1 dicts.2 (upper (row_seq row))) annotation ∧
      out !! i = Some written ∧
      if count args then
        written = annotation +:+ ":" +:+ str (Int (row_count row)) ∧
        last (split ":" written) = Some (str (Int (row_count row)))
      else
        written = annotation +:+ ":" ∧ last (split ":" written) = Some "".
Proof.
  intros dicts Hmain. unfold alignAnnotate.main in Hmain.
  apply bind_returns in Hmain as (annotations & Hanns & Hout).
  injection Hout as <-.
  apply allAnnotations_rows in Hanns as [Hlen Hrows].
  unfold allAnnotationsAndCounts. split.
  - destruct (count args).
    + rewrite length_zip_with, length_fmap. lia.
    + by rewrite length_fmap.
  - intros i row Hi. destruct (Hrows i row Hi) as (annotation & Ha & Hret).
    exists annotation. destruct (count args).
    + exists (annotation +:+ ":" +:+ str (Int (row_count row))).
      split_and!; [done| |done|].
      * rewrite lookup_zip_with, Ha. simpl. by rewrite list_lookup_fmap, Hi.
      * apply (last_split_app_sep ":"), (str_no_colon (Int (row_count row))).
    + exists (annotation +:+ ":"). split_and!; [done| |done|].
      * by rewrite list_lookup_fmap, Ha.
      * by apply (last_split_app_sep ":" annotation "").
Qed.

End Batch.

(** ** The properties on concrete runs *)

Import Sample.

Lemma listing_order_perm V (l : list (string * V)) : listing_order V l ≡ₚ l.
Proof. reflexivity. Qed.

Lemma twoRefs_lookup k refSeq :
  twoRefs !! k = Some refSeq →
  k = "r1" ∧ refSeq = "AATT" ∨ k = "r2" ∧ refSeq = "TTAA".
Proof.
  unfold twoRefs. intros Hk.
  destruct (decide (k = "r1")) as [->|Hr1].
  { rewrite lookup_insert_eq in Hk. left. by injection Hk as <-. }
  rewrite lookup_insert_ne in Hk by done.
  destruct (decide (k = "r2")) as [->|Hr2].
  { rewrite lookup_insert_eq in Hk. right. by injection Hk as <-. }
  by rewrite lookup_insert_ne, lookup_empty in Hk.
Qed.

Lemma twoPos_cover k : is_Some (twoRefs !! k) → is_Some (twoPos !! k).
Proof. by intros [refSeq [[-> _]|[-> _]]%twoRefs_lookup]. Qed.

Lemma oneRef_lookup k refSeq :
  oneRef !! k = Some refSeq → k = "r1" ∧ refSeq = "AATT".
Proof.
  unfold oneRef. intros Hk.
  destruct (decide (k = "r1")) as [->|Hr1].
  { rewrite lookup_insert_eq in Hk. by injection Hk as <-. }
  by rewrite lookup_insert_ne, lookup_empty in Hk.
Qed.

Lemma onePos_cover k : is_Some (oneRef !! k) → is_Some (onePos !! k).
Proof. by intros [refSeq [-> _]%oneRef_lookup]. Qed.

(** Both references of [twoRefs] are at distance [2] from [AAAA]. *)
Lemma twoRefs_tie k :
  k = "r1" ∨ k = "r2" →
  attains_min (hamDictMMonly listing_order "AAAA" twoRefs) k 2.
Proof.
  intros Hk. split; [by destruct Hk as [-> | ->]|].
  intros k' h' Hk'.
  apply (hamDictMMonly_lookup _ listing_order_perm) in Hk'
    as (refSeq & [[_ ->]|[_ ->]]%twoRefs_lookup & _ & ->); by vm_compute.
Qed.

Lemma twoRefs_gapped_tie k :
  k = "r1" ∨ k = "r2" →
  attains_min
    (hamDictMMindels listing_order (alignmentsOf ungapped "AAAA" twoRefs)) k 2.
Proof.
  intros Hk. split; [by destruct Hk as [-> | ->]|].
  intros k' h' Hk'.
  apply (hamDictMMindels_lookup _ listing_order_perm) in Hk' as (al & Hal & ->).
  unfold alignmentsOf in Hal. rewrite lookup_omap in Hal.
  destruct (twoRefs !! k') as [refSeq|] eqn:Hrefs; [|done].
  apply twoRefs_lookup in Hrefs as [[_ ->]|[_ ->]];
    injection Hal as <-; by vm_compute.
Qed.

(** C1 on a run: the query [TTAA] is the sequence of [r2] alone; in indel
    mode, with an aligner that raises on this very query and an empty
    position dictionary, the annotation is [r2:0:0:0:::]. *)
Lemma exact_match_short_circuit_witness :
  twoRefs !! "r2" = Some "TTAA" ∧
  alignAnnotateEachSeq listing_order no_list (raising_on "TTAA") no_lists
    "TTAA" twoRefs 1 ∅ (Some 1) true
  = ([], inr "r2:0:0:0:::").
Proof.
  split; [reflexivity|].
  destruct (exact_match_short_circuit listing_order listing_order_perm no_list
              (raising_on "TTAA") no_lists "TTAA" twoRefs 1 ∅ (Some 1) true
              "r2" eq_refl)
    as (refSeqID & i & _ & _ & _ & Huniq & Hrun & Hfmt).
  rewrite Hrun, Hfmt, Huniq; [reflexivity|].
  intros k' [[_ [=]]|[-> _]]%twoRefs_lookup. reflexivity.
Defined.

(** C3 on a run: [short], one base shorter than the query [AAAA] and equal
    to it on the bases it has, is not the reference of the annotation. *)
Lemma mismatch_only_same_length_witness :
  let m := alignAnnotateEachSeq listing_order no_list ungapped no_lists
             "AAAA" mixedRefs 1 mixedPos None false in
  hamming "AAAA" "AAA" = 0 ∧
  (result m = inr NA ∨
   ∃ matchID refSeq,
     mixedRefs !! matchID = Some refSeq ∧ len refSeq = len "AAAA" ∧
     matchID ≠ "short").
Proof.
  intros m. split; [reflexivity|].
  destruct (mismatch_only_same_length listing_order listing_order_perm no_list
              ungapped no_lists "AAAA" mixedRefs 1 mixedPos None 0)
    as [[HNA|(matchID & refSeq & Hm & Hlen & Hother & _)] _]; [by left|right].
  exists matchID, refSeq. split_and!; [done|done|].
  apply (Hother "short" "AAA"); [reflexivity|vm_compute; discriminate].
Defined.

(** C4 as stated fails on a run: [r1] and [r2] both attain the least
    distance [2] to the query [AAAA], the cutoff is [1], and the
    mismatch-only matcher prints no warning and selects no reference. *)
Lemma tie_above_cutoff_is_silent :
  "r1" ≠ "r2" ∧
  attains_min (hamDictMMonly listing_order "AAAA" twoRefs) "r1" 2 ∧
  attains_min (hamDictMMonly listing_order "AAAA" twoRefs) "r2" 2 ∧
  stdout (alignAnnotateEachSeqMMonly listing_order no_list "AAAA" twoRefs 1
            twoPos 1) = [] ∧
  result (alignAnnotateEachSeqMMonly listing_order no_list "AAAA" twoRefs 1
            twoPos 1) = inr "NA:nan:nan:nan:::".
Proof.
  split_and!; [done|apply twoRefs_tie; by left|apply twoRefs_tie; by right
              |reflexivity|reflexivity].
Qed.

(** C4, amended, on a run: with the tie of [r1] and [r2] at distance [2] and
    a cutoff of [2] the first minimum is annotated after the warning of the
    mismatch-only matcher, and the indel matcher warns as well. *)
Lemma tie_break_first_minimum_witness :
  (∃ matchID,
     first_min listing_order (hamDictMMonly listing_order "AAAA" twoRefs)
       matchID 2 ∧
     alignAnnotateEachSeqMMonly listing_order no_list "AAAA" twoRefs 1 twoPos 2
     = ([warnMMonly],
        inr (makeAnnotation matchID (Int 2) (Int 0) (Int 0) [] [] []))) ∧
  stdout (alignAnnotateEachSeqMMindels listing_order ungapped no_lists "AAAA"
            twoRefs 1 twoPos) = [warnMMindels].
Proof.
  destruct (tie_break_first_minimum listing_order listing_order_perm no_list
              ungapped no_lists "AAAA" twoRefs 1 twoPos 2 twoPos_cover)
    as (HMM & Hindels & _).
  split.
  - destruct (HMM "r1" "r2" 2)
      as (matchID & refSeq & refPos & Hfirst & _ & _ & Hrun);
      [done|apply twoRefs_tie; by left|apply twoRefs_tie; by right|].
    exists matchID. split; [done|]. by rewrite Hrun.
  - destruct (Hindels (λ k refSeq _, mk_is_Some _ _ eq_refl) "r1" "r2" 2)
      as (matchID & al & refPos & _ & _ & _ & Hrun);
      [done|apply twoRefs_gapped_tie; by left
      |apply twoRefs_gapped_tie; by right|].
    by rewrite Hrun.
Defined.

(** C5 as stated fails on a run: two records named [r1] are read without
    error, the index keeps the second sequence only, and the batch is
    annotated against it. *)
Lemma duplicate_reference_id_accepted :
  let records := [fasta "r1" "AAAA"; fasta "r1" "CCCC"] in
  readRefSeqs false records = (<["r1" := "CCCC"]> ∅, <["r1" := []]> ∅) ∧
  main listing_order no_list ungapped no_lists (mismatchArgs None false 1)
    records [query "CCCC" 1; query "AAAA" 1]
  = ([], inr ["r1:0:0:0::::"; "r1:4:0:0::::"]).
Proof. split; reflexivity. Qed.

(** C5, amended, on a run: the first of two records named [r1] leaves no
    trace in the index. *)
Lemma duplicate_ids_overwrite_witness :
  id (fasta "r1" "AAAA") = id (fasta "r1" "CCCC") ∧
  readRefSeqs false [fasta "r1" "AAAA"; fasta "r2" "TTAA"; fasta "r1" "CCCC"]
  = readRefSeqs false [fasta "r2" "TTAA"; fasta "r1" "CCCC"] ∧
  (readRefSeqs false
     [fasta "r1" "AAAA"; fasta "r2" "TTAA"; fasta "r1" "CCCC"]).1 !! "r1"
  = Some "CCCC".
Proof.
  destruct (duplicate_ids_overwrite false
              [fasta "r1" "AAAA"; fasta "r2" "TTAA"; fasta "r1" "CCCC"] "r1")
    as (Hlookup & _ & _).
  destruct (duplicate_ids_overwrite false [] "r1") as (_ & _ & Hdrop).
  split_and!; [reflexivity| |].
  - apply (Hdrop (fasta "r1" "AAAA") (fasta "r1" "CCCC") [fasta "r2" "TTAA"]).
    reflexivity.
  - rewrite Hlookup. reflexivity.
Defined.



(** On a run with the cutoff [1]: the only reference of the length of [AAAA]
    is at distance [2], above the cutoff, and the annotation is [NA]. *)
Lemma unresolved_iff_witness :
  (∀ k, oneRef !! k ≠ Some "AAAA") ∧
  Some 1 ≠ Some 0 ∧
  result (alignAnnotateEachSeq listing_order no_list ungapped no_lists "AAAA"
            oneRef 1 onePos (Some 1) false) = inr NA.
Proof.
  assert (∀ k, oneRef !! k ≠ Some "AAAA") as Hno
    by (by intros k [_ [=]]%oneRef_lookup).
  split_and!; [done|done|].
  destruct (unresolved_iff listing_order listing_order_perm no_list ungapped
              no_lists "AAAA" oneRef 1 onePos (Some 1) onePos_cover)
    as (HMM & _).
  destruct (HMM Hno) as (annotation & Hrun & Hiff); [done|].
  rewrite Hrun. f_equal. apply Hiff. right. exists "r1", "AATT".
  split_and!; [reflexivity|reflexivity| |by vm_compute].
  intros k' refSeq' [_ ->]%oneRef_lookup _. reflexivity.
Defined.

(** C2.  The claim fails on a run with the cutoff [0], which the command
    line documents as the maximum number of mismatches allowed: the only
    reference of the query's length is at distance [2] from the query
    [AAAA], above the cutoff, and the query is nevertheless assigned to [r1]
    with two mismatches, whatever the mismatch lister is, because a cutoff
    of [0] is replaced by the length of the query as an absent one is; with
    a cutoff of [1] the same query is left unassigned. *)
Lemma cutoff_zero_not_enforced :
  hamming "AAAA" "AATT" = 2 ∧
  (∀ k, oneRef !! k ≠ Some "AAAA") ∧
  (∀ findMismatches alignEmbossNeedle findMismatchesAndIndels,
     alignAnnotateEachSeq listing_order findMismatches alignEmbossNeedle
       findMismatchesAndIndels "AAAA" oneRef 1 onePos (Some 0) false
     = ([], inr (makeAnnotation "r1" (Int 2) (Int 0) (Int 0)
                   (findMismatches "AAAA" "AATT" 1 []) [] [])) ∧
     makeAnnotation "r1" (Int 2) (Int 0) (Int 0)
       (findMismatches "AAAA" "AATT" 1 []) [] [] ≠ NA ∧
     alignAnnotateEachSeq listing_order findMismatches alignEmbossNeedle
       findMismatchesAndIndels "AAAA" oneRef 1 onePos (Some 1) false
     = ([], inr NA)).
Proof.
  split_and!; [reflexivity| |].
  - by intros k [_ [=]]%oneRef_lookup.
  - intros findMismatches alignEmbossNeedle findMismatchesAndIndels.
    split_and!; [reflexivity|apply makeAnnotation_Int_not_NA|reflexivity].
Qed.

(** C7 as stated fails on a run: in indel mode on two cores the match of
    the first query returns, the aligner raises on the second query, and the
    run ends without any annotation. *)
Lemma batch_lost_on_one_failure :
  let records := [fasta "r1" "AATT"] in
  let dicts := readRefSeqs false records in
  annotate listing_order no_list (raising_on "GGGG") no_lists (indelArgs 2)
    dicts.1 dicts.2 "AATT" = ([], inr "r1:0:0:0:::") ∧
  main listing_order no_list (raising_on "GGGG") no_lists (indelArgs 2)
    records [query "aatt" 1; query "gggg" 1]
  = ([], inl (AlignerFailure "GGGG" "AATT")).
Proof. split; reflexivity. Qed.

(** C7 on a run: two queries on two cores against two references. *)
Lemma batch_order_witness :
  let records := [fasta "r1" "aatt"; fasta "r2" "ttaa"] in
  let allQuerySeqs := [query "ttaa" 1; query "aaat" 1] in
  let dicts := readRefSeqs false records in
  ∃ annotations,
    returns (allAnnotations listing_order no_list ungapped no_lists
               (mismatchArgs None false 2) dicts.1 dicts.2 allQuerySeqs)
      annotations ∧
    length annotations = 2%nat ∧
    returns (annotate listing_order no_list ungapped no_lists
               (mismatchArgs None false 2) dicts.1 dicts.2 "TTAA")
      (default "" (annotations !! 0%nat)) ∧
    returns (annotate listing_order no_list ungapped no_lists
               (mismatchArgs None false 2) dicts.1 dicts.2 "AAAT")
      (default "" (annotations !! 1%nat)).
Proof.
  intros records allQuerySeqs dicts.
  destruct (batch_order listing_order no_list ungapped no_lists
              (mismatchArgs None false 2) records allQuerySeqs)
    as (Hiff & Hrows & _).
  assert (returns (allAnnotations listing_order no_list ungapped no_lists
                     (mismatchArgs None false 2) dicts.1 dicts.2 allQuerySeqs)
            ["r2:0:0:0:::"; "r1:1:0:0:::"]) as Hret.
  { apply Hiff. split; [done|]. by repeat constructor. }
  destruct (Hrows _ Hret) as [Hlen Hith].
  eexists. split_and!; [exact Hret|done| |].
  - destruct (Hith 0%nat (query "ttaa" 1) eq_refl) as (a & [= <-] & Ha).
    exact Ha.
  - destruct (Hith 1%nat (query "aaat" 1) eq_refl) as (a & [= <-] & Ha).
    exact Ha.
Defined.

(** C8 on a run: an annotation with two mismatch entries splits into its
    seven fields, and a query longer than every reference gets [NA]. *)
Lemma annotation_format_witness :
  split ":" (makeAnnotation "r1" (Int 2) (Int 0) (Int 0) ["3AT"; "4AT"] [] [])
  = ["r1"; "2"; "0"; "0"; "3AT,4AT"; ""; ""] ∧
  alignAnnotateEachSeqMMonly listing_order no_list "AAAAA" twoRefs 1 twoPos 5
  = ([], inr "NA:nan:nan:nan:::").
Proof.
  destruct (annotation_format listing_order listing_order_perm no_list "r1"
              (Int 2) (Int 0) (Int 0) ["3AT"; "4AT"] [] [])
    as (_ & Hsplit & _ & _ & _ & Hnone & _).
  split.
  - apply Hsplit; [reflexivity|]. by repeat constructor.
  - apply Hnone. by intros k refSeq [[_ ->]|[_ ->]]%twoRefs_lookup.
Defined.

(** C9 on a run: with a cutoff of [0] as without cutoff, the query [AAAA]
    goes to the mismatch-only matcher with the cutoff [4]. *)
Lemma cutoff_zero_is_no_cutoff_witness :
  alignAnnotateEachSeq listing_order no_list ungapped no_lists "AAAA" oneRef 1
    onePos (Some 0) false
  = alignAnnotateEachSeqMMonly listing_order no_list "AAAA" oneRef 1 onePos 4 ∧
  alignAnnotateEachSeq listing_order no_list ungapped no_lists "AAAA" oneRef 1
    onePos None false
  = alignAnnotateEachSeqMMonly listing_order no_list "AAAA" oneRef 1 onePos 4.
Proof.
  destruct (cutoff_zero_is_no_cutoff listing_order listing_order_perm no_list
              ungapped no_lists "AAAA" oneRef 1 onePos) as [_ Hlen].
  apply Hlen. by intros k [_ [=]]%oneRef_lookup.
Defined.

(** C10 on two runs of the same table, without and with count mode. *)
Lemma count_suffix_witness :
  let records := [fasta "r1" "AATT"] in
  let allQuerySeqs := [query "AAAA" 12; query "AATT" 3] in
  (returns (main listing_order no_list ungapped no_lists
              (mismatchArgs None false 1) records allQuerySeqs)
     ["r1:2:0:0::::"; "r1:0:0:0::::"] ∧
   last (split ":" "r1:2:0:0::::") = Some "") ∧
  (returns (main listing_order no_list ungapped no_lists
              (mismatchArgs None true 1) records allQuerySeqs)
     ["r1:2:0:0::::12"; "r1:0:0:0::::3"] ∧
   last (split ":" "r1:2:0:0::::12") = Some "12").
Proof.
  intros records allQuerySeqs. split.
  - split; [reflexivity|].
    destruct (count_suffix listing_order no_list ungapped no_lists
                (mismatchArgs None false 1) records allQuerySeqs
                ["r1:2:0:0::::"; "r1:0:0:0::::"] eq_refl) as [_ Hrows].
    destruct (Hrows 0%nat (query "AAAA" 12) eq_refl)
      as (annotation & written & _ & [= <-] & _ & Hlast).
    exact Hlast.
  - split; [reflexivity|].
    destruct (count_suffix listing_order no_list ungapped no_lists
                (mismatchArgs None true 1) records allQuerySeqs
                ["r1:2:0:0::::12"; "r1:0:0:0::::3"] eq_refl) as [_ Hrows].
    destruct (Hrows 0%nat (query "AAAA" 12) eq_refl)
      as (annotation & written & _ & [= <-] & _ & Hlast).
    exact Hlast.
Defined.

(** ** Further properties of the matchers *)

Section EngineMore.

Variable iter_order : ∀ V : Type, list (string * V) → list (string * V).
Hypothesis iter_order_perm :
  ∀ V (l : list (string * V)), iter_order V l ≡ₚ l.
Variable findMismatches : string → string → Z → list Z → list string.
Variable alignEmbossNeedle : string → string → option (string * string).
Variable findMismatchesAndIndels :
  string → string → Z → list Z → list string * list string * list string.

Abbreviation items := (items iter_order).
Abbreviation first_min := (first_min iter_order).
Abbreviation hamDictMMonly := (hamDictMMonly iter_order).
Abbreviation hamDictMMindels := (hamDictMMindels iter_order).
Abbreviation alignmentsOf := (alignmentsOf alignEmbossNeedle).
Abbreviation alignAnnotateEachSeqMMonly :=
  (alignAnnotateEachSeqMMonly iter_order findMismatches).
Abbreviation alignAnnotateEachSeqMMindels :=
  (alignAnnotateEachSeqMMindels iter_order alignEmbossNeedle
     findMismatchesAndIndels).
Abbreviation alignAnnotateEachSeq :=
  (alignAnnotateEachSeq iter_order findMismatches alignEmbossNeedle
     findMismatchesAndIndels).




(** X4.  The position dictionary is read for the selected reference only,
    and only once a reference is selected.  If it has no entry for the first
    minimum, the mismatch-only matcher raises [KeyError] for that reference
    when the least distance is within the cutoff and answers [NA] when it is
    not, and the indel matcher raises [KeyError] for it. *)
Theorem missing_position_entry querySeq refSeqsDict startPos refPosDict
    MMcutoff matchID h :
  refPosDict !! matchID = None →
  (first_min (hamDictMMonly querySeq refSeqsDict) matchID h →
   result (alignAnnotateEachSeqMMonly querySeq refSeqsDict startPos
             refPosDict MMcutoff)
   = if bool_decide (h ≤ MMcutoff) then inl (KeyError matchID)
     else inr NA) ∧
  ((∀ k refSeq, refSeqsDict !! k = Some refSeq →
                is_Some (alignEmbossNeedle querySeq refSeq)) →
   first_min (hamDictMMindels (alignmentsOf querySeq refSeqsDict)) matchID h →
   result (alignAnnotateEachSeqMMindels querySeq refSeqsDict startPos
             refPosDict)
   = inl (KeyError matchID)).
Proof.
  intros Hp. split_and!.
  - intros Hfirst.
    assert (hamDictMMonly querySeq refSeqsDict ≠ ∅) as Hne.
    { intros He. destruct Hfirst as [[Hk _] _].
      by rewrite He, lookup_empty in Hk. }
    destruct (MMonly_candidates iter_order iter_order_perm findMismatches
                querySeq refSeqsDict startPos refPosDict MMcutoff Hne)
      as (minHam & matchID' & others & refSeq & Hfirst' & _ & _ & _ & _ & ->).
    destruct (first_min_unique iter_order _ _ _ _ _ Hfirst Hfirst')
      as [<- <-].
    rewrite Hp. by destruct (bool_decide (h ≤ MMcutoff)).
  - intros Hall Hfirst.
    assert (refSeqsDict ≠ ∅) as Hne.
    { intros ->. destruct Hfirst as [[Hk _] _].
      apply (hamDictMMindels_lookup _ iter_order_perm) in Hk as (al & Hal & _).
      unfold Vocab.alignmentsOf in Hal.
      by rewrite lookup_omap, lookup_empty in Hal. }
    destruct (MMindels_select iter_order iter_order_perm alignEmbossNeedle
                findMismatchesAndIndels querySeq refSeqsDict startPos
                refPosDict Hne Hall)
      as (minHam & matchID' & others & al & Hfirst' & _ & _ & ->).
    destruct (first_min_unique iter_order _ _ _ _ _ Hfirst Hfirst')
      as [<- <-].
    by rewrite Hp.
Qed.

(** X5.  With an empty reference set the mismatch-only mode answers [NA] for
    every query and every cutoff and prints nothing, and the indel mode
    raises [ValueError], the minimum of an empty sequence, for every
    query. *)
Theorem empty_reference_set querySeq startPos refPosDict MMcutoff :
  alignAnnotateEachSeq querySeq ∅ startPos refPosDict MMcutoff false
  = ([], inr "NA:nan:nan:nan:::") ∧
  alignAnnotateEachSeq querySeq ∅ startPos refPosDict MMcutoff true
  = ([], inl (ValueError "min() arg is an empty sequence")).
Proof.
  assert (∀ k, (∅ : gmap string string) !! k ≠ Some querySeq) as Hno
    by (intros k; by rewrite lookup_empty).
  rewrite !(no_exact_hit iter_order iter_order_perm) by done. split.
  - apply MMonly_no_candidate.
    apply (hamDictMMonly_empty iter_order iter_order_perm).
    intros k refSeq Hk. by rewrite lookup_empty in Hk.
  - apply (MMindels_no_reference iter_order iter_order_perm).
Qed.

(** X6.  The two ends of the cutoff in mismatch-only mode, for a query
    without exact hit and a position dictionary that covers the references.
    Without cutoff, and with a cutoff of at least the length of the query,
    the answer is [NA] exactly when no reference has the length of the
    query.  With a cutoff below [1] other than [0] the answer is always
    [NA]. *)
Theorem cutoff_extremes querySeq refSeqsDict startPos refPosDict MMcutoff :
  (∀ k, refSeqsDict !! k ≠ Some querySeq) →
  (∀ k, is_Some (refSeqsDict !! k) → is_Some (refPosDict !! k)) →
  (MMcutoff = None ∨ (∃ c, MMcutoff = Some c ∧ len querySeq ≤ c) →
   ∃ annotation,
     result (alignAnnotateEachSeq querySeq refSeqsDict startPos refPosDict
               MMcutoff false) = inr annotation ∧
     (annotation = NA ↔
      ∀ k refSeq, refSeqsDict !! k = Some refSeq →
                  len refSeq ≠ len querySeq)) ∧
  (∀ c, MMcutoff = Some c → c < 0 →
        result (alignAnnotateEachSeq querySeq refSeqsDict startPos refPosDict
                  MMcutoff false) = inr NA).
Proof.
  intros Hno Hcover.
  destruct (mismatch_only_NA_iff iter_order iter_order_perm findMismatches
              alignEmbossNeedle findMismatchesAndIndels querySeq refSeqsDict
              startPos refPosDict MMcutoff Hno Hcover)
    as (annotation & Hrun & Hiff).
  assert (∀ k h, attains_min (hamDictMMonly querySeq refSeqsDict) k h →
                 1 ≤ h ≤ len querySeq) as Hbounds.
  { intros k h [Hk _].
    apply (hamDictMMonly_lookup _ iter_order_perm) in Hk
      as (refSeq & Hk & Hlen & ->).
    split; [|apply hamming_le_len].
    pose proof (hamming_nonneg querySeq refSeq).
    destruct (decide (hamming querySeq refSeq = 0)) as [Hz|]; [|lia].
    destruct (Hno k). rewrite Hk. f_equal. symmetry.
    by apply hamming_zero. }
  split.
  - intros Hcut. exists annotation. split; [done|]. rewrite Hiff. split.
    + intros [Hnone|(k & h & Hk & Hlt)].
      * intros k refSeq Hk Hlen. by eapply Hnone.
      * apply Hbounds in Hk.
        assert (len querySeq ≤ effectiveCutoff querySeq MMcutoff); [|lia].
        unfold effectiveCutoff.
        destruct Hcut as [->|(c & -> & Hc)]; [done|]. simpl.
        destruct (c =? 0); [done|lia].
    + intros Hnone. left. intros k refSeq Hk Hlen. by eapply Hnone.
  - intros c -> Hc. rewrite Hrun. f_equal. apply Hiff.
    assert (effectiveCutoff querySeq (Some c) = c) as Hcut.
    { unfold effectiveCutoff. simpl. destruct (Z.eqb_spec c 0); [lia|done]. }
    rewrite Hcut.
    destruct (decide (hamDictMMonly querySeq refSeqsDict = ∅)) as [He|Hne].
    + left. by apply (hamDictMMonly_empty iter_order iter_order_perm).
    + right.
      destruct (select_min iter_order iter_order_perm _ Hne)
        as (minHam & matchID & _ & _ & _ & [Hmin _] & _).
      exists matchID, minHam. split; [done|]. apply Hbounds in Hmin. lia.
Qed.

End EngineMore.

(** ** Further properties of the reference index and of the batch *)

Lemma upper_char_idemp c : upper_char (upper_char c) = upper_char c.
Proof.
  assert (∀ n, (n < 256)%nat →
            upper_char (upper_char (ascii_of_nat n))
            = upper_char (ascii_of_nat n)) as Hall.
  { intros n Hn. do 256 (destruct n as [|n]; [reflexivity|]). lia. }
  rewrite <-(ascii_nat_embedding c). apply Hall, nat_ascii_bounded.
Qed.

Lemma upper_idemp s : upper (upper s) = upper s.
Proof.
  induction s as [|c s IH]; [done|]. simpl. by rewrite upper_char_idemp, IH.
Qed.

(** X7.  The two dictionaries [main] builds have the same keys, the IDs of
    the records read: an ID is a key of the sequence dictionary, and of the
    position dictionary, exactly when some record carries it. *)
Theorem index_keys numbered records k :
  (is_Some ((readRefSeqs numbered records).1 !! k) ↔ k ∈ id <$> records) ∧
  (is_Some ((readRefSeqs numbered records).2 !! k) ↔ k ∈ id <$> records).
Proof.
  destruct (readRefSeqs_lookup numbered records k) as [-> ->].
  rewrite !fmap_is_Some.
  assert (is_Some (last (filter (λ r, id r = k) records))
          ↔ k ∈ id <$> records) as Hiff.
  { rewrite list_elem_of_fmap. split.
    - intros [r Hr]. apply last_Some_elem_of, list_elem_of_filter in Hr
        as [Hid Hin]. by exists r.
    - intros (r & -> & Hin).
      destruct (last (filter (λ r', id r' = id r) records)) eqn:Hlast;
        [by eexists|].
      apply last_None in Hlast.
      assert (r ∈ filter (λ r', id r' = id r) records) as Hr
        by (by apply list_elem_of_filter).
      rewrite Hlast in Hr. by apply elem_of_nil in Hr. }
  done.
Qed.

Lemma dict_of_Permutation {V} (l1 l2 : list (string * V)) :
  NoDup l1.*1 → l1 ≡ₚ l2 → dict_of l1 = dict_of l2.
Proof.
  intros Hnd Hp. rewrite !dict_of_list_to_map. apply list_to_map_proper.
  - by rewrite fmap_reverse, reverse_Permutation.
  - by rewrite !reverse_Permutation.
Qed.

Lemma readRefSeqs_dict_of numbered records :
  readRefSeqs numbered records
  = (dict_of ((λ r, (id r, upper (seq r))) <$> records),
     dict_of ((λ r, (id r, refPosOf numbered r)) <$> records)).
Proof.
  induction records as [|r records IH] using rev_ind; [done|].
  rewrite readRefSeqs_snoc, IH, !fmap_app. simpl.
  unfold dict_of. by rewrite !foldl_app.
Qed.

(** X8.  When the records of the reference file carry distinct IDs, the
    entry the dictionaries hold for an ID, its upper-cased sequence and its
    position labels, does not depend on the order of the records.  (Nothing
    is said of the order in which the dictionaries are then iterated.) *)
Theorem index_entries_order_free numbered records records' k :
  NoDup (id <$> records) → records ≡ₚ records' →
  (readRefSeqs numbered records).1 !! k
  = (readRefSeqs numbered records').1 !! k ∧
  (readRefSeqs numbered records).2 !! k
  = (readRefSeqs numbered records').2 !! k.
Proof.
  intros Hnd Hperm. rewrite !readRefSeqs_dict_of. simpl.
  split; f_equal; (apply dict_of_Permutation;
                   [by rewrite <-list_fmap_compose|by rewrite Hperm]).
Qed.

Section BatchMore.

Variable iter_order : ∀ V : Type, list (string * V) → list (string * V).
Hypothesis iter_order_perm :
  ∀ V (l : list (string * V)), iter_order V l ≡ₚ l.
Variable findMismatches : string → string → Z → list Z → list string.
Variable alignEmbossNeedle : string → string → option (string * string).
Variable findMismatchesAndIndels :
  string → string → Z → list Z → list string * list string * list string.

Abbreviation alignAnnotateEachSeq :=
  (alignAnnotateEachSeq iter_order findMismatches alignEmbossNeedle
     findMismatchesAndIndels).
Abbreviation annotate :=
  (annotate iter_order findMismatches alignEmbossNeedle
     findMismatchesAndIndels).
Abbreviation allAnnotations :=
  (allAnnotations iter_order findMismatches alignEmbossNeedle
     findMismatchesAndIndels).
Abbreviation main :=
  (main iter_order findMismatches alignEmbossNeedle findMismatchesAndIndels).

(** X9.  One match on a string query, against dictionaries of which the
    position dictionary covers the references, never raises in mismatch-only
    mode and never raises [KeyError] or [IndexError] in either mode: when it
    raises, the mode is the indel mode, and the exception is the
    [ValueError] of the minimum of an empty reference set or the exception
    of the aligner on the query and a reference on which it raises. *)
Theorem match_exception_taxonomy querySeq refSeqsDict startPos refPosDict
    MMcutoff indelMode e :
  (∀ k, is_Some (refSeqsDict !! k) → is_Some (refPosDict !! k)) →
  result (alignAnnotateEachSeq querySeq refSeqsDict startPos refPosDict
            MMcutoff indelMode) = inl e →
  indelMode = true ∧
  (refSeqsDict = ∅ ∧ e = ValueError "min() arg is an empty sequence" ∨
   ∃ k refSeq, refSeqsDict !! k = Some refSeq ∧
               alignEmbossNeedle querySeq refSeq = None ∧
               e = AlignerFailure querySeq refSeq).
Proof. apply (match_exceptions iter_order iter_order_perm). Qed.

(** X10.  The column of annotations depends on the sequences up to the case
    of their letters only: for reference records, read in the same order,
    that agree on IDs and quality values and whose sequences are equal up to
    case, and for query cells that are strings equal up to case, the same
    lines are printed and the same column or exception results. *)
Theorem annotations_case_insensitive args records records' allQuerySeqs
    allQuerySeqs' :
  let dicts := readRefSeqs (numberedMode args) records in
  let dicts' := readRefSeqs (numberedMode args) records' in
  Forall2 (λ r r', id r = id r' ∧ upper (seq r) = upper (seq r') ∧
                   phred_quality r = phred_quality r') records records' →
  Forall2 (λ q q', upper (row_seq q) = upper (row_seq q'))
    allQuerySeqs allQuerySeqs' →
  allAnnotations args dicts.1 dicts.2 allQuerySeqs
  = allAnnotations args dicts'.1 dicts'.2 allQuerySeqs'.
Proof.
  intros dicts dicts' Hrecords Hrows.
  assert (dicts = dicts') as ->.
  { unfold dicts, dicts'. rewrite !readRefSeqs_dict_of. f_equal; f_equal.
    - induction Hrecords as [|r r' ? ? (Hid & Hseq & _) _ IH]; [done|].
      rewrite !fmap_cons. by rewrite Hid, Hseq, IH.
    - induction Hrecords as [|r r' ? ? (Hid & _ & Hq) _ IH]; [done|].
      rewrite !fmap_cons, IH. unfold refPosOf. by rewrite Hid, Hq. }
  destruct (decide (numCore args = 0)) as [Hz|Hnz].
  - unfold alignAnnotate.allAnnotations, Parallel. by rewrite Hz.
  - rewrite !allAnnotations_mapM by done.
    induction Hrows as [|q q' ? ? Hseq _ IH]; [done|].
    simpl. by rewrite Hseq, IH.
Qed.

End BatchMore.

(** X11.  Every sequence stored in the reference index is in upper case: it
    is left unchanged by [upper], which is idempotent. *)
Theorem index_upper_case numbered records k refSeq :
  (readRefSeqs numbered records).1 !! k = Some refSeq →
  upper refSeq = refSeq.
Proof.
  destruct (readRefSeqs_lookup numbered records k) as [-> _].
  intros (r & _ & ->)%fmap_Some. apply upper_idemp.
Qed.

(** ** The further properties on concrete runs *)

Lemma oneRef_distance k h :
  hamDictMMonly listing_order "AAAA" oneRef !! k = Some h → k = "r1" ∧ h = 2.
Proof.
  intros (refSeq & [-> ->]%oneRef_lookup & _ & ->)%(hamDictMMonly_lookup
    _ listing_order_perm).
  done.
Qed.




(** X4 on a run: [r1] is selected for [AAAA] and the position dictionary is
    empty. *)
Lemma missing_position_entry_witness :
  (∅ : gmap string (list Z)) !! "r1" = None ∧
  result (alignAnnotateEachSeqMMonly listing_order no_list "AAAA" oneRef 1 ∅ 2)
  = inl (KeyError "r1") ∧
  result (alignAnnotateEachSeqMMonly listing_order no_list "AAAA" oneRef 1 ∅ 1)
  = inr NA.
Proof.
  assert (first_min listing_order (hamDictMMonly listing_order "AAAA" oneRef)
            "r1" 2) as Hfirst.
  { split.
    - split; [reflexivity|]. by intros k' h' [_ ->]%oneRef_distance.
    - exists [], []. split; [reflexivity|]. by intros kv ?%elem_of_nil. }
  split_and!; [reflexivity| |].
  - destruct (missing_position_entry listing_order listing_order_perm no_list
                ungapped no_lists "AAAA" oneRef 1 ∅ 2 "r1" 2
                (lookup_empty "r1"))
      as [HMM _].
    by rewrite (HMM Hfirst).
  - destruct (missing_position_entry listing_order listing_order_perm no_list
                ungapped no_lists "AAAA" oneRef 1 ∅ 1 "r1" 2
                (lookup_empty "r1"))
      as [HMM _].
    by rewrite (HMM Hfirst).
Defined.

(** X5 on a run: no reference at all. *)
Lemma empty_reference_set_witness :
  alignAnnotateEachSeq listing_order no_list ungapped no_lists "AAAA" ∅ 1 ∅
    (Some 2) false
  = ([], inr "NA:nan:nan:nan:::") ∧
  alignAnnotateEachSeq listing_order no_list ungapped no_lists "AAAA" ∅ 1 ∅
    (Some 2) true
  = ([], inl (ValueError "min() arg is an empty sequence")).
Proof.
  exact (empty_reference_set listing_order listing_order_perm no_list ungapped
           no_lists "AAAA" 1 ∅ (Some 2)).
Defined.

(** X6 on a run: a negative cutoff leaves [AAAA] unassigned, a cutoff of the
    length of the query assigns it. *)
Lemma cutoff_extremes_witness :
  (∀ k, oneRef !! k ≠ Some "AAAA") ∧
  result (alignAnnotateEachSeq listing_order no_list ungapped no_lists "AAAA"
            oneRef 1 onePos (Some (-1)) false) = inr NA ∧
  ∃ annotation,
    result (alignAnnotateEachSeq listing_order no_list ungapped no_lists "AAAA"
              oneRef 1 onePos (Some 4) false) = inr annotation ∧
    annotation ≠ NA.
Proof.
  assert (∀ k, oneRef !! k ≠ Some "AAAA") as Hno
    by (by intros k [_ [=]]%oneRef_lookup).
  split_and!; [done| |].
  - destruct (cutoff_extremes listing_order listing_order_perm no_list ungapped
                no_lists "AAAA" oneRef 1 onePos (Some (-1)) Hno onePos_cover)
      as [_ Hneg].
    by apply (Hneg (-1)).
  - destruct (cutoff_extremes listing_order listing_order_perm no_list ungapped
                no_lists "AAAA" oneRef 1 onePos (Some 4) Hno onePos_cover)
      as [Hfull _].
    destruct Hfull as (annotation & Hrun & Hiff).
    + right. by exists 4.
    + exists annotation. split; [done|]. intros HNA.
      by apply (proj1 Hiff HNA "r1" "AATT").
Defined.

(** X8 on a run: two records in the two orders, and the entry of [r2]. *)
Lemma index_entries_order_free_witness :
  (readRefSeqs false [fasta "r1" "AATT"; fasta "r2" "TTAA"]).1 !! "r2"
  = (readRefSeqs false [fasta "r2" "TTAA"; fasta "r1" "AATT"]).1 !! "r2".
Proof.
  apply (index_entries_order_free false
           [fasta "r1" "AATT"; fasta "r2" "TTAA"]
           [fasta "r2" "TTAA"; fasta "r1" "AATT"] "r2");
    [|apply perm_swap].
  by apply (bool_decide_unpack _).
Defined.

(** X9 on a run: in indel mode the aligner raises on [GGGG]. *)
Lemma match_exception_taxonomy_witness :
  result (alignAnnotateEachSeq listing_order no_list (raising_on "GGGG")
            no_lists "GGGG" oneRef 1 onePos None true)
  = inl (AlignerFailure "GGGG" "AATT") ∧
  ∃ k refSeq,
    oneRef !! k = Some refSeq ∧ raising_on "GGGG" "GGGG" refSeq = None.
Proof.
  split; [reflexivity|].
  destruct (match_exception_taxonomy listing_order listing_order_perm no_list
              (raising_on "GGGG") no_lists "GGGG" oneRef 1 onePos None true
              (AlignerFailure "GGGG" "AATT") onePos_cover eq_refl)
    as [_ [[Hempty _]|(k & refSeq & Hk & Hal & _)]].
  - by apply (f_equal (λ d : gmap string string, d !! "r1")) in Hempty.
  - by exists k, refSeq.
Defined.

(** X10 on a run: the same records and cells in lower and in upper case. *)
Lemma annotations_case_insensitive_witness :
  allAnnotations listing_order no_list ungapped no_lists
    (mismatchArgs None true 1) (readRefSeqs false [fasta "r1" "aatt"]).1
    (readRefSeqs false [fasta "r1" "aatt"]).2 [query "aaAA" 7]
  = allAnnotations listing_order no_list ungapped no_lists
      (mismatchArgs None true 1) (readRefSeqs false [fasta "r1" "AATT"]).1
      (readRefSeqs false [fasta "r1" "AATT"]).2 [query "AAAA" 7].
Proof.
  apply (annotations_case_insensitive listing_order no_list ungapped no_lists
           (mismatchArgs None true 1) [fasta "r1" "aatt"] [fasta "r1" "AATT"]
           [query "aaAA" 7] [query "AAAA" 7]);
    by repeat constructor.
Defined.

(** X11 on a run: the record [r1] is stored in upper case. *)
Lemma index_upper_case_witness :
  (readRefSeqs false [fasta "r1" "aaTt"]).1 !! "r1" = Some "AATT" ∧
  upper "AATT" = "AATT".
Proof.
  split; [reflexivity|].
  by apply (index_upper_case false [fasta "r1" "aaTt"] "r1").
Defined.

(** ** old/seq/compressVariants_c1_v1.py *)

Import Blocks.

(** ** Facts about the blocks *)

Lemma runs_from_nonempty c x l : runs_from c x l ≠ [].
Proof.
  revert c x. induction l as [|y l IH]; intros c x; simpl; [done|].
  destruct (String.eqb y x); [apply IH|done].
Qed.

Lemma bump_last_cons n counts :
  counts ≠ [] → bump_last (n :: counts) = n :: bump_last counts.
Proof. by destruct counts. Qed.

Lemma bump_last_snoc counts n :
  bump_last (counts ++ [n]) = (counts ++ [n + 1])%list.
Proof.
  induction counts as [|m counts IH]; [done|].
  rewrite <-!app_comm_cons, bump_last_cons, IH; [done|].
  by destruct counts.
Qed.

Lemma sum_app counts1 counts2 :
  sum (counts1 ++ counts2) = sum counts1 + sum counts2.
Proof.
  unfold sum. induction counts1 as [|n counts1 IH]; simpl; [done|]. lia.
Qed.

Lemma sum_bump_last counts : sum (bump_last counts) = sum counts + 1.
Proof.
  induction counts as [|n counts IH]; [done|].
  destruct counts as [|m counts]; [unfold sum; simpl; lia|].
  rewrite bump_last_cons by done. unfold sum in *. simpl in *. lia.
Qed.

Lemma sum_runs_from c x l : sum (runs_from c x l) = c + llen l.
Proof.
  revert c x. induction l as [|y l IH]; intros c x; simpl.
  - unfold sum, llen. simpl. lia.
  - assert (llen (y :: l) = llen l + 1) as -> by (unfold llen; simpl; lia).
    destruct (String.eqb y x); [rewrite IH; lia|].
    change (sum (c :: runs_from 1 y l)) with (c + sum (runs_from 1 y l)).
    rewrite IH. lia.
Qed.

Lemma sum_runs l : sum (runs l) = llen l.
Proof.
  destruct l as [|x l]; [done|]. unfold runs. rewrite sum_runs_from.
  unfold llen. simpl length. lia.
Qed.

Lemma runs_from_positive c x l :
  1 ≤ c → Forall (λ n, 1 ≤ n) (runs_from c x l).
Proof.
  revert c x. induction l as [|y l IH]; intros c x Hc; simpl.
  - by constructor.
  - destruct (String.eqb y x); [apply IH; lia|].
    constructor; [done|]. by apply IH.
Qed.

Lemma bump_last_positive counts :
  Forall (λ n, 1 ≤ n) counts → Forall (λ n, 1 ≤ n) (bump_last counts).
Proof.
  induction 1 as [|n counts Hn Hcounts IH]; [by constructor|].
  destruct counts as [|m counts]; [constructor; [lia|done]|].
  rewrite bump_last_cons by done. by constructor.
Qed.

Lemma last_cons_default {A} (l : list A) z x :
  default x (last (z :: l)) = default z (last l).
Proof.
  revert z x. induction l as [|z' l IH]; intros z x; [done|].
  change (last (z :: z' :: l)) with (last (z' :: l)).
  by rewrite (IH z' x), (IH z' z).
Qed.

(** The runs of a list with one more element: the last run grows when the
    element repeats the one before it, and a run of one is added when it does
    not. *)
Lemma runs_from_snoc c x l y :
  runs_from c x (l ++ [y])
  = if String.eqb y (default x (last l)) then bump_last (runs_from c x l)
    else (runs_from c x l ++ [1])%list.
Proof.
  revert c x. induction l as [|z l IH]; intros c x; simpl.
  - by destruct (String.eqb y x).
  - rewrite last_cons_default.
    destruct (String.eqb z x); [apply IH|].
    rewrite IH. destruct (String.eqb y (default z (last l))); [|done].
    rewrite bump_last_cons; [done|apply runs_from_nonempty].
Qed.

Lemma runs_snoc l x y :
  runs (l ++ [x; y])
  = if String.eqb y x then bump_last (runs (l ++ [x]))
    else (runs (l ++ [x]) ++ [1])%list.
Proof.
  replace (l ++ [x; y])%list with ((l ++ [x]) ++ [y])%list
    by (by rewrite <-app_assoc).
  destruct l as [|z l]; simpl.
  - by destruct (String.eqb y x).
  - rewrite runs_from_snoc. by rewrite last_snoc.
Qed.

(** The run-length encoding decodes to the list, and its counts are the
    runs. *)
Lemma rle_from_counts c x l : (rle_from c x l).*2 = runs_from c x l.
Proof.
  revert c x. induction l as [|y l IH]; intros c x; simpl; [done|].
  destruct (String.eqb y x); [apply IH|]. simpl. by rewrite IH.
Qed.

Lemma unrle_rle_from c x l :
  0 ≤ c → unrle (rle_from c x l) = (replicate (Z.to_nat c) x ++ l)%list.
Proof.
  revert c x. induction l as [|y l IH]; intros c x Hc; simpl.
  - unfold unrle. simpl. by rewrite app_nil_r.
  - destruct (String.eqb_spec y x) as [->|Hne].
    + rewrite IH by lia. rewrite Z2Nat.inj_add by lia.
      change (Z.to_nat 1) with 1%nat. rewrite replicate_add. simpl.
      by rewrite <-app_assoc.
    + unfold unrle in *. simpl. rewrite IH by lia. done.
Qed.

Lemma unrle_rle l : unrle (rle l) = l ∧ (rle l).*2 = runs l.
Proof.
  destruct l as [|x l]; [done|]. unfold rle, runs.
  by rewrite unrle_rle_from, rle_from_counts.
Qed.

(** ** Facts about compressVariants *)

Lemma llen_snoc {A} (l : list A) x : llen (l ++ [x]) = llen l + 1.
Proof. unfold llen. rewrite length_app. simpl. lia. Qed.

Lemma split_fields sep s :
  match split sep s with
  | [] => False
  | [field] => has_char (λ c, Ascii.eqb c sep) s = false ∧ field = s
  | _ :: _ :: _ => has_char (λ c, Ascii.eqb c sep) s = true
  end.
Proof.
  unfold has_char. induction s as [|c s IH]; simpl; [done|].
  destruct (Ascii.eqb c sep); simpl.
  - by destruct (split sep s).
  - destruct (split sep s) as [|field [|field' fields]]; [done| |done].
    destruct IH as [-> ->]. done.
Qed.

Lemma secondField_cases line :
  if has_second_field line
  then ∃ seq, compressVariants.secondField line = inr seq
  else compressVariants.secondField line = inl IndexError.
Proof.
  unfold has_second_field, compressVariants.secondField, is_tab.
  pose proof (split_fields "009" (compressVariants.rstrip line)) as Hsplit.
  destruct (split "009" (compressVariants.rstrip line))
    as [|field [|field' fields]]; [done| |].
  - destruct Hsplit as [-> _]. done.
  - rewrite Hsplit. by eexists.
Qed.

Lemma secondField_raises line e :
  compressVariants.secondField line = inl e ↔
  e = IndexError ∧ has_second_field line = false.
Proof.
  pose proof (secondField_cases line) as Hcases.
  destruct (has_second_field line).
  - destruct Hcases as [seq ->]. split; [done|]. by intros [_ [=]].
  - rewrite Hcases. split; [by intros [= <-]|by intros [-> _]].
Qed.

Lemma fields_total lines :
  Forall (λ line, has_second_field line = true) lines →
  ∃ seqs, fields lines seqs.
Proof.
  induction 1 as [|line lines Hline _ [seqs IH]]; [by exists []; constructor|].
  pose proof (secondField_cases line) as Hcases. rewrite Hline in Hcases.
  destruct Hcases as [seq Hseq]. exists (seq :: seqs). by constructor.
Qed.

(** The second loop on well-formed lines, from a state whose block is not
    empty: every line but the last closes the block when its sequence is
    new, and the last line closes the block after joining it. *)
Lemma loop_blocks numSeqs lines : ∀ seqs st,
  fields lines seqs → lines ≠ [] → compressVariants.seqBlock st ≠ [] →
  compressVariants.lineCount st + llen lines = numSeqs →
  ∃ st',
    compressVariants.loop numSeqs st lines = (st', None) ∧
    compressVariants.statFile st'
    = (compressVariants.statFile st ++
       (written <$> bump_last (runs_from (llen (compressVariants.seqBlock st))
                                 (compressVariants.lastSeq st)
                                 (removelast seqs))))%list.
Proof.
  induction lines as [|line lines IH]; intros seqs st Hfields Hne Hblock Hn;
    [done|].
  inversion Hfields as [|? seq ? seqs' Hseq Hfields']; subst.
  simpl compressVariants.loop. unfold compressVariants.step. rewrite Hseq.
  destruct lines as [|line' lines].
  - inversion Hfields'; subst.
    assert ((compressVariants.lineCount st + 1
             =? compressVariants.lineCount st + llen [line]) = true) as ->
      by (apply Z.eqb_eq; unfold llen; simpl; lia).
    rewrite orb_true_r. eexists. split; [reflexivity|]. simpl.
    by rewrite llen_snoc.
  - inversion Hfields' as [|? seq' ? seqs'' Hseq' Hfields'']; subst.
    assert ((compressVariants.lineCount st + 1
             =? compressVariants.lineCount st + llen (line :: line' :: lines))
            = false) as ->.
    { apply Z.eqb_neq. unfold llen. simpl length. lia. }
    rewrite orb_false_r.
    change (removelast (seq :: seq' :: seqs''))
      with (seq :: removelast (seq' :: seqs'')).
    simpl runs_from.
    destruct (String.eqb seq (compressVariants.lastSeq st)); simpl negb; cbv iota.
    + edestruct (IH (seq' :: seqs'')) as (st' & Hloop & Hstat);
        [done|done| | |exists st'; split; [exact Hloop|]].
      * simpl. by destruct (compressVariants.seqBlock st).
      * simpl. unfold llen. simpl length. lia.
      * rewrite Hstat. simpl. by rewrite llen_snoc.
    + edestruct (IH (seq' :: seqs'')) as (st' & Hloop & Hstat);
        [done|done| | |exists st'; split; [exact Hloop|]].
      * done.
      * simpl. unfold llen. simpl length. lia.
      * rewrite Hstat. simpl compressVariants.statFile.
        simpl compressVariants.seqBlock. simpl compressVariants.lastSeq.
        rewrite bump_last_cons by apply runs_from_nonempty.
        rewrite fmap_cons, <-app_assoc. done.
Qed.

Lemma loop_cons numSeqs st line lines :
  compressVariants.loop numSeqs st (line :: lines)
  = match compressVariants.step numSeqs st line with
    | (st', Some e) => (st', Some e)
    | (st', None) => compressVariants.loop numSeqs st' lines
    end.
Proof. reflexivity. Qed.

(** A run on well-formed lines. *)
Lemma main_blocks lines seqs :
  fields lines seqs → seqs ≠ [] →
  compressVariants.stat (compressVariants.main lines)
  = Some (written <$> bump_last (runs (removelast seqs))) ∧
  compressVariants.outcome (compressVariants.main lines) = inr 1.
Proof.
  intros Hfields Hne.
  destruct Hfields as [|line seq lines seqs Hseq Hfields]; [done|].
  unfold compressVariants.main, compressVariants.countLines. rewrite Hseq.
  cbv beta iota.
  destruct lines as [|line' lines].
  - inversion Hfields; subst. simpl. unfold compressVariants.step.
    rewrite Hseq. simpl. rewrite String.eqb_refl. simpl. done.
  - inversion Hfields as [|? seq' ? seqs' Hseq' Hfields']; subst.
    rewrite loop_cons. unfold compressVariants.step. rewrite Hseq.
    cbn [compressVariants.lineCount compressVariants.seqBlock
         compressVariants.lastSeq compressVariants.statFile
         compressVariants.printed].
    rewrite String.eqb_refl.
    assert ((0 + 1 =? llen (line :: line' :: lines)) = false) as ->.
    { apply Z.eqb_neq. unfold llen. simpl length. lia. }
    simpl negb. simpl orb. cbv iota.
    edestruct (loop_blocks (llen (line :: line' :: lines)) (line' :: lines)
                 (seq' :: seqs')) as (st' & -> & Hstat);
      [done|done| | |].
    3: { simpl. rewrite Hstat. done. }
    + done.
    + simpl. unfold llen. simpl length. lia.
Qed.

Lemma removelast_cons {A} (x : A) l :
  l ≠ [] → removelast (x :: l) = x :: removelast l.
Proof. by destruct l. Qed.

(** The second loop on well-formed lines none of which is the last of the
    file: the blocks closed are all the runs but the last one, which is the
    block still open. *)
Lemma loop_prefix numSeqs lines : ∀ seqs st,
  fields lines seqs → compressVariants.seqBlock st ≠ [] →
  compressVariants.lineCount st + llen lines < numSeqs →
  ∃ st',
    compressVariants.loop numSeqs st lines = (st', None) ∧
    compressVariants.lineCount st'
    = compressVariants.lineCount st + llen lines ∧
    compressVariants.statFile st'
    = (compressVariants.statFile st ++
       (written <$> removelast (runs_from (llen (compressVariants.seqBlock st))
                                  (compressVariants.lastSeq st) seqs)))%list.
Proof.
  induction lines as [|line lines IH]; intros seqs st Hfields Hblock Hn.
  - inversion Hfields; subst. exists st. simpl.
    split_and!; [done|unfold llen; simpl; lia|by rewrite app_nil_r].
  - inversion Hfields as [|? seq ? seqs' Hseq Hfields']; subst.
    assert (llen (line :: lines) = llen lines + 1) as Hlen
      by (unfold llen; simpl length; lia).
    assert (0 ≤ llen lines) as Hpos by (unfold llen; lia).
    rewrite loop_cons. unfold compressVariants.step. rewrite Hseq.
    assert ((compressVariants.lineCount st + 1 =? numSeqs) = false) as ->
      by (apply Z.eqb_neq; lia).
    rewrite orb_false_r. simpl runs_from.
    destruct (String.eqb seq (compressVariants.lastSeq st)); simpl negb;
      cbv iota.
    + edestruct (IH seqs') as (st' & Hloop & Hcount & Hstat);
        [done| | |exists st'; split_and!; [exact Hloop| |]].
      * simpl. by destruct (compressVariants.seqBlock st).
      * simpl. lia.
      * rewrite Hcount. simpl. lia.
      * rewrite Hstat. simpl. by rewrite llen_snoc.
    + edestruct (IH seqs') as (st' & Hloop & Hcount & Hstat);
        [done| | |exists st'; split_and!; [exact Hloop| |]].
      * done.
      * simpl. lia.
      * rewrite Hcount. simpl. lia.
      * rewrite Hstat.
        cbn [compressVariants.lineCount compressVariants.seqBlock
             compressVariants.lastSeq compressVariants.statFile
             compressVariants.printed].
        rewrite removelast_cons by apply runs_from_nonempty.
        by rewrite fmap_cons, <-app_assoc.
Qed.

Lemma loop_app numSeqs lines1 lines2 : ∀ st,
  compressVariants.loop numSeqs st (lines1 ++ lines2)
  = match compressVariants.loop numSeqs st lines1 with
    | (st', Some e) => (st', Some e)
    | (st', None) => compressVariants.loop numSeqs st' lines2
    end.
Proof.
  induction lines1 as [|line lines1 IH]; intros st; [done|].
  rewrite <-app_comm_cons, !loop_cons.
  destruct (compressVariants.step numSeqs st line) as [st' [e|]]; [done|].
  apply IH.
Qed.

(** A run that meets a line without second field after well-formed
    lines. *)
Lemma main_malformed good bad rest seqs :
  fields good seqs → has_second_field bad = false →
  compressVariants.outcome (compressVariants.main (good ++ bad :: rest))
  = inl IndexError ∧
  compressVariants.stat (compressVariants.main (good ++ bad :: rest))
  = match seqs with
    | [] => None
    | _ => Some (written <$> removelast (runs seqs))
    end.
Proof.
  intros Hfields Hbad.
  assert (compressVariants.secondField bad = inl IndexError) as Hraise
    by (by apply secondField_raises).
  destruct Hfields as [|line seq good seqs Hseq Hfields].
  { unfold compressVariants.main. simpl. by rewrite Hraise. }
  unfold compressVariants.main, compressVariants.countLines.
  rewrite <-app_comm_cons, Hseq. cbv beta iota.
  rewrite loop_cons. unfold compressVariants.step. rewrite Hseq.
  cbn [compressVariants.lineCount compressVariants.seqBlock
       compressVariants.lastSeq compressVariants.statFile
       compressVariants.printed].
  rewrite String.eqb_refl.
  assert (llen (line :: good ++ bad :: rest) = llen good + llen rest + 2)
    as Hlen.
  { unfold llen. simpl length. rewrite length_app. simpl length. lia. }
  assert (0 ≤ llen good ∧ 0 ≤ llen rest) as Hpos by (unfold llen; lia).
  assert ((0 + 1 =? llen (line :: good ++ bad :: rest)) = false) as ->
    by (apply Z.eqb_neq; lia).
  simpl negb. simpl orb. cbv iota. rewrite loop_app.
  edestruct (loop_prefix (llen (line :: good ++ bad :: rest)) good seqs)
    as (st' & -> & Hcount & Hstat); [done| | |].
  3: { rewrite loop_cons. unfold compressVariants.step. rewrite Hraise.
       cbn [compressVariants.outcome compressVariants.stat
            compressVariants.statFile].
       split; [done|]. rewrite Hstat. done. }
  - done.
  - simpl. lia.
Qed.

Lemma step_outcome numSeqs st line :
  (compressVariants.step numSeqs st line).2
  = if has_second_field line then None else Some IndexError.
Proof.
  pose proof (secondField_cases line) as Hcases.
  unfold compressVariants.step.
  destruct (has_second_field line).
  - destruct Hcases as [seq ->].
    by destruct (negb _ || _).
  - by rewrite Hcases.
Qed.

Lemma loop_outcome numSeqs lines : ∀ st,
  (compressVariants.loop numSeqs st lines).2
  = if forallb has_second_field lines then None else Some IndexError.
Proof.
  induction lines as [|line lines IH]; intros st; [done|].
  rewrite loop_cons. pose proof (step_outcome numSeqs st line) as Hstep.
  destruct (compressVariants.step numSeqs st line) as [st' o].
  simpl in Hstep. subst o. simpl forallb.
  destruct (has_second_field line); simpl; [apply IH|done].
Qed.

Lemma main_outcome lines :
  compressVariants.outcome (compressVariants.main lines)
  = if forallb has_second_field lines then inr 1 else inl IndexError.
Proof.
  unfold compressVariants.main, compressVariants.countLines.
  destruct lines as [|line lines]; [done|].
  pose proof (secondField_cases line) as Hcases. simpl forallb.
  destruct (has_second_field line) eqn:Hline.
  - destruct Hcases as [seq ->]. cbv beta iota.
    match goal with
    | |- context [compressVariants.loop ?n ?st ?l] =>
        pose proof (loop_outcome n l st) as Hloop;
        destruct (compressVariants.loop n st l) as [st' o]
    end.
    simpl in Hloop. rewrite Hline in Hloop. simpl in Hloop. subst o.
    by destruct (forallb has_second_field lines).
  - by rewrite Hcases.
Qed.

Lemma step_printed numSeqs st line :
  compressVariants.lineCount (compressVariants.step numSeqs st line).1
  = compressVariants.lineCount st + 1 ∧
  compressVariants.printed (compressVariants.step numSeqs st line).1
  = (compressVariants.printed st ++
     (if decide ((compressVariants.lineCount st + 1) `mod` 1000 = 0)
      then [progress (compressVariants.lineCount st + 1)] else []))%list.
Proof.
  assert ((if (compressVariants.lineCount st + 1) `mod` 1000 =? 0
           then (compressVariants.printed st ++
                 [progress (compressVariants.lineCount st + 1)])%list
           else compressVariants.printed st)
          = (compressVariants.printed st ++
             (if decide ((compressVariants.lineCount st + 1) `mod` 1000 = 0)
              then [progress (compressVariants.lineCount st + 1)]
              else []))%list) as Hprinted.
  { destruct (Z.eqb_spec ((compressVariants.lineCount st + 1) `mod` 1000) 0);
      destruct (decide _); try done. by rewrite app_nil_r. }
  unfold compressVariants.step. fold (progress (compressVariants.lineCount st + 1)).
  destruct (compressVariants.secondField line) as [e|seq]; [done|].
  by destruct (negb _ || _).
Qed.

Lemma loop_printed numSeqs lines : ∀ st,
  forallb has_second_field lines = true →
  compressVariants.printed (compressVariants.loop numSeqs st lines).1
  = (compressVariants.printed st ++
     (progress <$>
      filter (λ i, i `mod` 1000 = 0)
        (seqZ (compressVariants.lineCount st + 1) (llen lines))))%list.
Proof.
  induction lines as [|line lines IH]; intros st Hlines.
  - simpl. by rewrite app_nil_r.
  - simpl in Hlines. apply andb_true_iff in Hlines as [Hline Hlines].
    rewrite loop_cons.
    pose proof (step_outcome numSeqs st line) as Hnone.
    destruct (step_printed numSeqs st line) as [Hcount Hprinted].
    destruct (compressVariants.step numSeqs st line) as [st' o].
    simpl in Hnone, Hcount, Hprinted. rewrite Hline in Hnone. subst o.
    rewrite IH, Hprinted, Hcount by done.
    assert (llen (line :: lines) = Z.succ (llen lines)) as ->
      by (unfold llen; simpl length; lia).
    rewrite (seqZ_cons (compressVariants.lineCount st + 1))
      by (unfold llen; lia).
    rewrite Z.pred_succ, filter_cons, <-app_assoc.
    replace (Z.succ (compressVariants.lineCount st + 1))
      with (compressVariants.lineCount st + 1 + 1) by lia.
    by destruct (decide _).
Qed.

(** A run on well-formed lines prints one progress line for each multiple
    of [1000] up to the number of lines, and then the summary. *)
Lemma main_printed lines :
  forallb has_second_field lines = true →
  compressVariants.stdout (compressVariants.main lines)
  = ((progress <$> filter (λ i, i `mod` 1000 = 0) (seqZ 1 (llen lines))) ++
     [summary (llen lines)])%list.
Proof.
  intros Hlines.
  unfold compressVariants.main, compressVariants.countLines.
  destruct lines as [|line lines]; [done|].
  pose proof (secondField_cases line) as Hcases.
  pose proof Hlines as Hline. simpl in Hline.
  apply andb_true_iff in Hline as [Hline _]. rewrite Hline in Hcases.
  destruct Hcases as [seq ->]. cbv beta iota.
  match goal with
  | |- context [compressVariants.loop ?n ?st ?l] =>
      pose proof (loop_outcome n l st) as Hnone;
      pose proof (loop_printed n l st Hlines) as Hprinted;
      destruct (compressVariants.loop n st l) as [st' o]
  end.
  rewrite Hlines in Hnone. simpl in Hnone, Hprinted. subst o.
  cbn [compressVariants.stdout]. rewrite Hprinted. done.
Qed.

Lemma forallb_Forall {A} (f : A → bool) (l : list A) :
  forallb f l = true ↔ Forall (λ x, f x = true) l.
Proof.
  induction l as [|x l IH]; simpl; [by split; [constructor|]|].
  rewrite andb_true_iff, Forall_cons, IH. done.
Qed.

Lemma fields_length lines seqs : fields lines seqs → llen seqs = llen lines.
Proof. intros Hfields. unfold llen. by rewrite (Forall2_length _ _ _ Hfields). Qed.

Lemma fields_forallb lines seqs :
  fields lines seqs → forallb has_second_field lines = true.
Proof.
  induction 1 as [|line seq lines seqs Hseq _ IH]; [done|]. simpl.
  rewrite IH, andb_true_r. pose proof (secondField_cases line) as Hcases.
  destruct (has_second_field line); [done|]. congruence.
Qed.

Lemma llen_removelast {A} (l : list A) :
  l ≠ [] → llen (removelast l) + 1 = llen l.
Proof.
  induction l as [|x l IH] using rev_ind; [done|]. intros _.
  rewrite removelast_last, llen_snoc. done.
Qed.

Lemma length_bump_last counts :
  counts ≠ [] → length (bump_last counts) = length counts.
Proof.
  induction counts as [|n counts IH]; [done|]. intros _.
  destruct counts as [|m counts]; [done|].
  rewrite bump_last_cons by done.
  change (S (length (bump_last (m :: counts))) = S (length (m :: counts))).
  f_equal. by apply IH.
Qed.

(** X12.  For a file of well-formed lines the [.stat] file holds, in order,
    the lengths of the runs of equal consecutive sequences among all lines
    but the last, the last of these lengths increased by one for the last
    line (a single [1] for a file of one line), and the run returns [1]. *)
Theorem stat_blocks lines seqs :
  fields lines seqs → seqs ≠ [] →
  compressVariants.stat (compressVariants.main lines)
  = Some (written <$> bump_last (runs (removelast seqs))) ∧
  compressVariants.outcome (compressVariants.main lines) = inr 1.
Proof. apply main_blocks. Qed.

(** X13.  For a file of well-formed lines, empty or not, the counts written
    to the [.stat] file are all at least [1] and add up to the number of
    lines of the file. *)
Theorem stat_counts_total lines seqs :
  fields lines seqs →
  ∃ counts,
    compressVariants.stat (compressVariants.main lines)
    = Some (written <$> counts) ∧
    Forall (λ n, 1 ≤ n) counts ∧
    sum counts = llen lines.
Proof.
  intros Hfields. destruct (decide (seqs = [])) as [->|Hne].
  { inversion Hfields; subst. by exists []. }
  destruct (main_blocks lines seqs Hfields Hne) as [Hstat _].
  exists (bump_last (runs (removelast seqs))). split_and!; [done| |].
  - apply bump_last_positive. destruct (removelast seqs) as [|x l]; [done|].
    by apply runs_from_positive.
  - rewrite sum_bump_last, sum_runs, llen_removelast by done.
    by apply fields_length.
Qed.

(** X14.  The last line never opens a block of its own.  When the last two
    sequences of a file of well-formed lines are equal, the [.stat] file
    holds exactly the lengths of the runs of the file; when they differ, the
    last run, of length [1], has no entry and is counted in the entry of
    the run before it. *)
Theorem last_block_merged lines init a b :
  fields lines (init ++ [a; b]) →
  (a = b →
   compressVariants.stat (compressVariants.main lines)
   = Some (written <$> runs (init ++ [a; b]))) ∧
  (a ≠ b →
   runs (init ++ [a; b]) = (runs (init ++ [a]) ++ [1])%list ∧
   compressVariants.stat (compressVariants.main lines)
   = Some (written <$> bump_last (runs (init ++ [a]))) ∧
   compressVariants.stat (compressVariants.main lines)
   ≠ Some (written <$> runs (init ++ [a; b]))).
Proof.
  intros Hfields.
  destruct (main_blocks lines (init ++ [a; b]) Hfields) as [Hstat _].
  { by destruct init. }
  replace (init ++ [a; b])%list with ((init ++ [a]) ++ [b])%list in Hstat
    by (by rewrite <-app_assoc).
  rewrite removelast_last in Hstat. rewrite Hstat, runs_snoc.
  split.
  - intros <-. by rewrite String.eqb_refl.
  - intros Hab. destruct (String.eqb_spec b a) as [->|_]; [done|].
    split_and!; [done|done|]. intros [= Heq].
    apply (f_equal length) in Heq.
    rewrite !length_fmap, length_app, length_bump_last in Heq;
      [simpl in Heq; lia|].
    destruct init; [done|apply runs_from_nonempty].
Qed.

(** X15.  The sequence of the last line is never compared with anything
    that reaches the [.stat] file: two files of well-formed lines whose
    sequences agree on all lines but the last give the same [.stat]
    file. *)
Theorem last_sequence_ignored lines lines' init b b' :
  fields lines (init ++ [b]) → fields lines' (init ++ [b']) →
  compressVariants.stat (compressVariants.main lines)
  = compressVariants.stat (compressVariants.main lines').
Proof.
  intros Hfields Hfields'.
  destruct (main_blocks lines (init ++ [b]) Hfields) as [-> _];
    [by destruct init|].
  destruct (main_blocks lines' (init ++ [b']) Hfields') as [-> _];
    [by destruct init|].
  by rewrite !removelast_last.
Qed.

(** X16.  When a line without second field follows well-formed lines, the
    run ends with [IndexError]; if it is the first line the [.stat] file is
    never opened, and otherwise the file is left with the lengths of the
    runs closed so far: all the runs of the lines before it but the last
    one. *)
Theorem malformed_line good bad rest seqs :
  fields good seqs → has_second_field bad = false →
  compressVariants.outcome (compressVariants.main (good ++ bad :: rest))
  = inl IndexError ∧
  compressVariants.stat (compressVariants.main (good ++ bad :: rest))
  = match seqs with
    | [] => None
    | _ => Some (written <$> removelast (runs seqs))
    end.
Proof. apply main_malformed. Qed.

(** X17.  A run returns [1] or raises [IndexError], nothing else, and it
    raises exactly when some line of the file, once its trailing white
    space is dropped, has no tab. *)
Theorem raises_iff_malformed lines :
  (compressVariants.outcome (compressVariants.main lines) = inr 1 ∨
   compressVariants.outcome (compressVariants.main lines) = inl IndexError) ∧
  (compressVariants.outcome (compressVariants.main lines) = inl IndexError ↔
   ∃ line, line ∈ lines ∧
           has_char is_tab (compressVariants.rstrip line) = false).
Proof.
  rewrite main_outcome.
  destruct (forallb has_second_field lines) eqn:Hall.
  - split; [by left|]. split; [done|]. intros (line & Hin & Hline).
    rewrite forallb_Forall in Hall. rewrite Forall_forall in Hall.
    apply Hall in Hin. unfold has_second_field in Hin.
    rewrite Hline in Hin. done.
  - split; [by right|]. split; [|done]. intros _.
    apply not_true_iff_false in Hall. rewrite forallb_Forall in Hall.
    apply (not_Forall_Exists _) in Hall.
    apply Exists_exists in Hall as (line & Hin & Hline).
    exists line. split; [done|]. by apply not_true_is_false.
Qed.

(** X18.  A run on a file of [n] well-formed lines prints one progress line
    for each multiple of [1000] from [1] to [n], in increasing order, and
    then the summary with [n]. *)
Theorem progress_lines lines :
  Forall (λ line, has_second_field line = true) lines →
  compressVariants.stdout (compressVariants.main lines)
  = ((progress <$> filter (λ i, i `mod` 1000 = 0) (seqZ 1 (llen lines))) ++
     [summary (llen lines)])%list.
Proof.
  intros Hlines. apply main_printed. by apply forallb_Forall.
Qed.

(** ** The properties of compressVariants on concrete files *)

Import Lines.

(** X12 on a run: two lines with [A] and a last line with [B] give the one
    count [3]. *)
Lemma stat_blocks_witness :
  compressVariants.stat
    (compressVariants.main [line "b1" "A"; line "b2" "A"; line "b3" "B"])
  = Some [written 3].
Proof.
  destruct (stat_blocks [line "b1" "A"; line "b2" "A"; line "b3" "B"]
              ["A"; "A"; "B"]) as [Hstat _];
    [by repeat constructor|done|].
  exact Hstat.
Defined.

(** X13 on the same run. *)
Lemma stat_counts_total_witness :
  ∃ counts,
    compressVariants.stat
      (compressVariants.main [line "b1" "A"; line "b2" "A"; line "b3" "B"])
    = Some (written <$> counts) ∧
    sum counts = 3.
Proof.
  destruct (stat_counts_total [line "b1" "A"; line "b2" "A"; line "b3" "B"]
              ["A"; "A"; "B"]) as (counts & Hstat & _ & Hsum);
    [by repeat constructor|].
  by exists counts.
Defined.

(** X14 on a run: the file with the sequences [A], [B] has two runs of
    length [1], and its [.stat] file holds the one count [2]. *)
Lemma last_block_merged_witness :
  runs ["A"; "B"] = [1; 1] ∧
  compressVariants.stat
    (compressVariants.main [line "b1" "A"; line "b2" "B"])
  = Some [written 2].
Proof.
  destruct (last_block_merged [line "b1" "A"; line "b2" "B"] [] "A" "B")
    as [_ Hdiffer]; [by repeat constructor|].
  destruct Hdiffer as (Hruns & Hstat & _); [done|].
  split; [exact Hruns|exact Hstat].
Defined.

(** X15 on a run: the last line with [B] or with [A]. *)
Lemma last_sequence_ignored_witness :
  compressVariants.stat
    (compressVariants.main [line "b1" "A"; line "b2" "A"; line "b3" "B"])
  = compressVariants.stat
      (compressVariants.main [line "b1" "A"; line "b2" "A"; line "b3" "A"]).
Proof.
  apply (last_sequence_ignored _ _ ["A"; "A"] "B" "A");
    by repeat constructor.
Defined.

(** X16 on a run: a fourth line without tab, after the runs [A], [A] and
    [B]: the count [2] of the closed run is in the file. *)
Lemma malformed_line_witness :
  compressVariants.outcome
    (compressVariants.main
       [line "b1" "A"; line "b2" "A"; line "b3" "B"; "b4"; line "b5" "B"])
  = inl IndexError ∧
  compressVariants.stat
    (compressVariants.main
       [line "b1" "A"; line "b2" "A"; line "b3" "B"; "b4"; line "b5" "B"])
  = Some [written 2].
Proof.
  apply (malformed_line [line "b1" "A"; line "b2" "A"; line "b3" "B"] "b4"
           [line "b5" "B"] ["A"; "A"; "B"]);
    [by repeat constructor|reflexivity].
Defined.

(** X18 on a run: a file of a thousand lines, one progress line and the
    summary. *)
Lemma progress_lines_witness :
  compressVariants.stdout
    (compressVariants.main (replicate 1000 (line "b1" "A")))
  = ["Processing the 1000th sequence"; summary 1000].
Proof.
  etrans.
  - apply (progress_lines (replicate 1000 (line "b1" "A"))).
    by apply Forall_replicate.
  - by vm_compute.
Defined.

(** ** quantTools/mergeTimeSeries.py *)

(** ** Facts about mergeTimeSeries *)

Section ConcatFacts.

Variable V : Type.
Variable repr : V → string.

Abbreviation concatSeriesIntoString :=
  (mergeTimeSeries.concatSeriesIntoString V repr).
Abbreviation concatDFColumnsIntoSeries :=
  (mergeTimeSeries.concatDFColumnsIntoSeries V repr).

Lemma join_cons sep field fields :
  fields ≠ [] →
  join sep (field :: fields) = field +:+ sep +:+ join sep fields.
Proof. by destruct fields. Qed.

Lemma join_first sep acc value values :
  join sep (((acc +:+ sep) +:+ value) :: values)
  = join sep (acc :: value :: values).
Proof.
  rewrite (join_cons sep acc) by done. destruct values as [|value' values].
  - unfold join. simpl. by rewrite string_app_assoc.
  - rewrite !(join_cons sep _ (value' :: values)) by done.
    by rewrite !string_app_assoc.
Qed.

Lemma foldl_join sep (values : list string) : ∀ acc,
  foldl (λ string value, (string +:+ sep) +:+ value) acc values
  = join sep (acc :: values).
Proof.
  induction values as [|value values IH]; intros acc; [done|].
  simpl. by rewrite IH, join_first.
Qed.

Lemma foldM_addElement series separator labels : ∀ acc,
  mergeTimeSeries.foldM
    (λ string currElement,
       let! value := getitem series currElement in
       ret ((string +:+ separator) +:+ repr value)) acc labels
  = let! values := mapM (getitem series) labels in
    ret (foldl (λ string value, (string +:+ separator) +:+ value) acc
           (repr <$> values)).
Proof.
  induction labels as [|label labels IH]; intros acc; [done|].
  simpl. unfold getitem at 1 3.
  destruct (series !! label) as [value|]; [|done].
  rewrite !bind_ret, IH.
  destruct (mapM (getitem series) labels) as [out [e|values]]; [done|].
  simpl. by rewrite !app_nil_r.
Qed.

Lemma concatSeriesIntoString_join series indexLabels separator :
  concatSeriesIntoString series indexLabels separator
  = match indexLabels with
    | [] => raise IndexError
    | _ => let! values := mapM (getitem series) indexLabels in
           ret (join separator (repr <$> values))
    end.
Proof.
  unfold mergeTimeSeries.concatSeriesIntoString.
  destruct indexLabels as [|label0 labels]; [done|].
  simpl first. rewrite bind_ret. simpl tail. simpl mapM.
  unfold getitem at 1 3. destruct (series !! label0) as [value0|]; [|done].
  rewrite !bind_ret.
  rewrite foldM_addElement.
  destruct (mapM (getitem series) labels) as [out [e|values]]; [done|].
  unfold bind, ret. rewrite foldl_join, fmap_cons. by rewrite !app_nil_r.
Qed.

Lemma mapM_getitem_ret {A} (d : gmap string A) labels values :
  Forall2 (λ label v, d !! label = Some v) labels values →
  mapM (getitem d) labels = ret values.
Proof.
  induction 1 as [|label v labels values Hv _ IH]; [done|].
  simpl. unfold getitem at 1. by rewrite Hv, bind_ret, IH.
Qed.

Lemma mapM_getitem_missing {A} (d : gmap string A) found label rest :
  (∀ l, l ∈ found → is_Some (d !! l)) → d !! label = None →
  mapM (getitem d) (found ++ label :: rest) = raise (KeyError label).
Proof.
  intros Hfound Hmissing. induction found as [|l found IH]; simpl.
  - unfold getitem at 1. by rewrite Hmissing.
  - destruct (Hfound l) as [v Hv]; [by left|].
    unfold getitem at 1. rewrite Hv, bind_ret, IH; [done|].
    intros l' Hl'. apply Hfound. by right.
Qed.

(** X19.  [concatSeriesIntoString] is the join of the texts of the values
    at the labels, in the order of the labels.  With no label at all it
    raises [IndexError], and when the series lacks a label it raises
    [KeyError] for the first label it lacks. *)
Theorem series_string_is_join series indexLabels separator :
  (indexLabels = [] →
   concatSeriesIntoString series indexLabels separator = raise IndexError) ∧
  (∀ values,
     indexLabels ≠ [] →
     Forall2 (λ label v, series !! label = Some v) indexLabels values →
     concatSeriesIntoString series indexLabels separator
     = ret (join separator (repr <$> values))) ∧
  (∀ found label rest,
     indexLabels = (found ++ label :: rest)%list →
     (∀ l, l ∈ found → is_Some (series !! l)) → series !! label = None →
     concatSeriesIntoString series indexLabels separator
     = raise (KeyError label)).
Proof.
  rewrite concatSeriesIntoString_join. split_and!.
  - by intros ->.
  - intros values Hne Hvalues. destruct indexLabels; [done|].
    by rewrite (mapM_getitem_ret _ _ values).
  - intros found label rest -> Hfound Hmissing.
    rewrite mapM_getitem_missing by done. by destruct found.
Qed.

(** X20.  When the separator is one character that occurs in the text of
    no value, the string made by [concatSeriesIntoString] splits back at
    the separator into the texts of the values at the labels, one field for
    each label. *)
Theorem series_string_splits_back series indexLabels sep values :
  indexLabels ≠ [] →
  Forall2 (λ label v, series !! label = Some v) indexLabels values →
  Forall (λ v, all_chars (λ c, negb (Ascii.eqb c sep)) (repr v) = true)
    values →
  ∃ string,
    concatSeriesIntoString series indexLabels (String sep "") = ret string ∧
    split sep string = repr <$> values.
Proof.
  intros Hne Hvalues Hfree. rewrite concatSeriesIntoString_join.
  destruct indexLabels as [|label0 labels]; [done|].
  rewrite (mapM_getitem_ret _ _ values) by done. rewrite bind_ret.
  eexists. split; [done|]. apply split_join.
  - inversion Hvalues; by subst.
  - by apply Forall_fmap.
Qed.

(** The loop of [concatDFColumnsIntoSeries] from any column of texts of the
    height of the columns: entry [i] of the result is entry [i] of that
    column followed by the separator and the text of entry [i] of each
    column in turn. *)
Lemma foldM_columns (df : gmap string (list V)) separator (n : nat) labels :
  ∀ columns acc,
  Forall2 (λ label column, df !! label = Some column ∧ length column = n)
    labels columns →
  length acc = n →
  ∃ out,
    mergeTimeSeries.foldM
      (λ s currCol,
         let! column := getitem df currCol in
         ret (zip_with (λ a b, a +:+ b)
                ((λ a, a +:+ separator) <$> s) (repr <$> column)))
      acc labels = ret out ∧
    length out = n ∧
    ∀ i a values,
      acc !! i = Some a →
      Forall2 (λ column v, column !! i = Some v) columns values →
      out !! i
      = Some (foldl (λ string value, (string +:+ separator) +:+ value) a
                (repr <$> values)).
Proof.
  induction labels as [|label labels IH]; intros columns acc Hcolumns Hacc.
  - inversion Hcolumns; subst. exists acc. split_and!; [done|done|].
    intros i a values Ha Hvalues. by inversion Hvalues; subst.
  - inversion Hcolumns as [|? column ? columns' [Hcolumn Hlen] Hcolumns'];
      subst.
    destruct (IH columns'
                (zip_with (λ a b, a +:+ b)
                   ((λ a, a +:+ separator) <$> acc) (repr <$> column)))
      as (out & Hout & Hlenout & Hrows); [done| |].
    { rewrite length_zip_with, !length_fmap. lia. }
    exists out. split_and!; [|done|].
    + simpl. unfold getitem at 1. by rewrite Hcolumn, !bind_ret.
    + intros i a values Ha Hvalues.
      inversion Hvalues as [|? v ? values' Hv Hvalues']; subst.
      rewrite fmap_cons. simpl. apply Hrows; [|done].
      by rewrite lookup_zip_with, !list_lookup_fmap, Ha, Hv.
Qed.

(** X21.  On a data frame with at least one row, with at least one label
    and every label a column of the frame, [concatDFColumnsIntoSeries]
    returns a column of as many strings as the frame has rows, and its
    entry [i] is the join, with the separator, of the texts of the entries
    [i] of the labelled columns, in the order of the labels. *)
Theorem frame_rows (df : gmap string (list V)) columnsLabels separator
    (n : nat) columns :
  Forall2 (λ label column, df !! label = Some column ∧ length column = n)
    columnsLabels columns →
  columnsLabels ≠ [] → (0 < n)%nat →
  ∃ out,
    concatDFColumnsIntoSeries df columnsLabels separator = ret out ∧
    length out = n ∧
    ∀ i values,
      Forall2 (λ column v, column !! i = Some v) columns values →
      out !! i = Some (join separator (repr <$> values)).
Proof.
  intros Hcolumns Hne _.
  destruct Hcolumns as [|label0 column0 labels columns [Hcolumn0 Hlen] Hcolumns];
    [done|].
  destruct (foldM_columns df separator n labels columns (repr <$> column0)
              Hcolumns) as (out & Hout & Hlenout & Hrows).
  { by rewrite length_fmap. }
  exists out. split_and!; [|done|].
  - unfold mergeTimeSeries.concatDFColumnsIntoSeries. simpl first.
    rewrite bind_ret. unfold getitem at 1. by rewrite Hcolumn0, bind_ret.
  - intros i values Hvalues.
    inversion Hvalues as [|? v0 ? values' Hv0 Hvalues']; subst.
    rewrite (Hrows i (repr v0) values'); [|by rewrite list_lookup_fmap, Hv0|done].
    rewrite fmap_cons. by rewrite foldl_join.
Qed.

(** X22.  [concatDFColumnsIntoSeries] raises [IndexError] when it is given
    no label, and, on a frame whose columns before it have at least one
    entry, [KeyError] for the first label that is not a column of the
    frame. *)
Theorem frame_missing_column (df : gmap string (list V)) columnsLabels
    separator :
  (columnsLabels = [] →
   concatDFColumnsIntoSeries df columnsLabels separator = raise IndexError) ∧
  (∀ found label rest,
     columnsLabels = (found ++ label :: rest)%list →
     (∀ l, l ∈ found → ∃ column, df !! l = Some column ∧ column ≠ []) →
     df !! label = None →
     concatDFColumnsIntoSeries df columnsLabels separator
     = raise (KeyError label)).
Proof.
  split; [by intros ->|].
  intros found label rest -> Hfound Hmissing.
  unfold mergeTimeSeries.concatDFColumnsIntoSeries.
  destruct found as [|label0 found].
  - simpl first. rewrite bind_ret. unfold getitem. by rewrite Hmissing.
  - simpl first. rewrite bind_ret. simpl tail.
    destruct (Hfound label0) as (column0 & Hcolumn0 & _); [by left|].
    unfold getitem at 1. rewrite Hcolumn0, bind_ret.
    assert (∀ l, l ∈ found → is_Some (df !! l)) as Hfound'.
    { intros l Hl. destruct (Hfound l) as (column & -> & _); [by right|].
      by eexists. }
    generalize (repr <$> column0). clear Hcolumn0 Hfound.
    induction found as [|l found IH]; intros acc; simpl.
    + unfold getitem at 1. by rewrite Hmissing.
    + destruct (Hfound' l) as [column Hcolumn]; [by left|].
      unfold getitem at 1. rewrite Hcolumn, !bind_ret. apply IH.
      intros l' Hl'. apply Hfound'. by right.
Qed.

End ConcatFacts.

(** ** The properties of mergeTimeSeries on concrete data *)

Import Frames.

(** X19 on a run: the two time points joined with a colon. *)
Lemma series_string_is_join_witness :
  mergeTimeSeries.concatSeriesIntoString Z text times ["1"; "2"] ":"
  = ret "0:15".
Proof.
  destruct (series_string_is_join Z text times ["1"; "2"] ":")
    as (_ & Hjoin & _).
  apply (Hjoin [0; 15]); [done|by repeat constructor].
Defined.

(** X20 on the same run: the string splits back into the two texts. *)
Lemma series_string_splits_back_witness :
  ∃ string,
    mergeTimeSeries.concatSeriesIntoString Z text times ["1"; "2"] ":"
    = ret string ∧
    split ":" string = ["0"; "15"].
Proof.
  apply (series_string_splits_back Z text times ["1"; "2"] ":" [0; 15]);
    [done|by repeat constructor|by repeat constructor].
Defined.

(** X21 on a run: a frame of two columns and two rows, and its second
    row. *)
Lemma frame_rows_witness :
  ∃ out,
    mergeTimeSeries.concatDFColumnsIntoSeries Z text signals ["1"; "2"] ":"
    = ret out ∧
    length out = 2%nat ∧
    out !! 1%nat = Some "20:21".
Proof.
  destruct (frame_rows Z text signals ["1"; "2"] ":" 2 [[10; 20]; [11; 21]])
    as (out & Hout & Hlen & Hrows); [by repeat constructor|done|lia|].
  exists out. split_and!; [done|done|].
  apply (Hrows 1%nat [20; 21]). by repeat constructor.
Defined.

(** X22 on a run: the frame has no column [3]. *)
Lemma frame_missing_column_witness :
  mergeTimeSeries.concatDFColumnsIntoSeries Z text signals ["1"; "3"; "2"] ":"
  = raise (KeyError "3").
Proof.
  destruct (frame_missing_column Z text signals ["1"; "3"; "2"] ":")
    as [_ Hmissing].
  apply (Hmissing ["1"] "3" ["2"]); [done| |done].
  intros l [->|[]%elem_of_nil]%elem_of_cons. by eexists.
Defined.
